(** * TerrariumPI: the history ledger of [terrariumDatabase.py]

    A shallow embedding of the entity classes of [terrariumDatabase.py]
    (Sensor, Relay, Button, their history tables and Enclosure) and of the
    part of the Pony ORM they rely on, followed by the properties of the
    measurement ledger.

    Conventions of the embedding.
    - A Python [float] column is an exact rational ([Qc]); rounding and
      overflow of binary64 are outside the model. A statement that needs a
      law of arithmetic, and not only the expression the code evaluates,
      carries the hypothesis [no_overflow] on the numbers it adds.
    - A naive [datetime] is the number of microseconds since
      [datetime.min]; [datetime.now()] is an explicit argument [now], read
      once per property or method call.
    - An entity's [history] collection is the list of its rows in the
      history table; the primary key [(owner, timestamp)] is enforced by
      the insert of the storage layer, which raises on a duplicate.
    - A method that writes returns the new state of [self] next to its
      Python return value; a raised exception is the [Raise] result. *)

From Stdlib Require Import ZArith QArith Qcanon List String Ascii Bool Lia.
From Stdlib Require Import Lqa Permutation.
Import ListNotations.

Open Scope Z_scope.

(** ** Values *)

Definition float := Qc.

Definition float_eqb (a b : float) : bool := Qeq_bool a b.
Definition float_leb (a b : float) : bool := Qle_bool a b.
Definition float_ltb (a b : float) : bool := negb (Qle_bool b a).

(** [a != b] on a column that may hold [None]. *)
Definition ne (a b : option float) : bool :=
  match a, b with
  | Some x, Some y => negb (float_eqb x y)
  | None, None => false
  | _, _ => true
  end.

Definition datetime := Z.

Definition timedelta (seconds : Z) : Z := seconds * 1000000.

(** [dt.replace(second=0, microsecond=0)] *)
Definition replace_second_microsecond_0 (dt : datetime) : datetime :=
  dt - dt mod timedelta 60.

(** ** Exceptions *)

Inductive exn : Set :=
| TransactionIntegrityError
| OptimisticCheckError
| TypeError
| NameError
| OSError.

Inductive result (A : Type) : Type :=
| Ok (a : A)
| Raise (e : exn).

Arguments Ok {A} a.
Arguments Raise {A} e.

Definition bind {A B : Type} (m : result A) (k : A -> result B) : result B :=
  match m with
  | Ok a => k a
  | Raise e => Raise e
  end.

Notation "x <- m ;; k" := (bind m (fun x => k))
  (at level 61, m at next level, right associativity).

(** ** Functions and properties

    A function object has its parameter names and a body that reads its
    variables from the frame of the call; a name the frame does not bind is
    looked up among the globals of the module. Reading a property calls its
    getter with the instance as the only argument. *)

Record function (A B : Type) : Type := def {
  parameters : list string;
  body : (string -> result A) -> result B
}.

Arguments def {A B} parameters body.
Arguments parameters {A B} f.
Arguments body {A B} f.

(** The module defines no global variable that a method body reads. *)
Definition globals {A : Type} (x : string) : result A := Raise NameError.

Fixpoint frame {A : Type} (names : list string) (args : list A) (x : string)
    : result A :=
  match names, args with
  | n :: names', a :: args' =>
      if String.eqb x n then Ok a else frame names' args' x
  | _, _ => globals x
  end.

Definition call {A B : Type} (f : function A B) (args : list A) : result B :=
  if Nat.eqb (List.length args) (List.length (parameters f))
  then body f (frame (parameters f) args)
  else Raise TypeError.

Definition property_get {A B : Type} (fget : function A B) (obj : A) : result B :=
  call fget [obj].

(** ** The storage layer: one owner's rows of a history table *)

Section Ledger.

Variable row : Type.
Variable timestamp : row -> datetime.

(** [.order_by(orm.desc(timestamp))] *)
Fixpoint insert_desc (r : row) (l : list row) : list row :=
  match l with
  | [] => [r]
  | x :: l' =>
      if timestamp x <=? timestamp r then r :: l else x :: insert_desc r l'
  end.

Definition order_by_desc (l : list row) : list row :=
  fold_right insert_desc [] l.

(** [.first()] *)
Definition first (l : list row) : option row := hd_error l.

(** The query shared by the three [value] properties:
    [history.filter(lambda h: h.timestamp >= limit)
            .order_by(orm.desc(timestamp)).first()] *)
Definition latest_since (limit : datetime) (history : list row) : option row :=
  first (order_by_desc (filter (fun h => limit <=? timestamp h) history)).

(** [history.filter(lambda h: h.timestamp == t).first()] *)
Definition at_timestamp (t : datetime) (history : list row) : option row :=
  first (filter (fun h => timestamp h =? t) history).

Definition pk_exists (t : datetime) (table : list row) : bool :=
  existsb (fun h => timestamp h =? t) table.

Fixpoint replace_pk (r : row) (table : list row) : list row :=
  match table with
  | [] => []
  | x :: table' =>
      if timestamp x =? timestamp r then r :: table'
      else x :: replace_pk r table'
  end.

(** What a method leaves in the session: rows created and rows modified. *)
Inductive write : Type :=
| Insert (r : row)
| Update (r : row).

(** The flush of one write. A second row with an existing key is refused
    by the table; an update needs its row to be there. *)
Definition flush1 (w : write) (table : list row) : result (list row) :=
  match w with
  | Insert r =>
      if pk_exists (timestamp r) table then Raise TransactionIntegrityError
      else Ok (table ++ [r])
  | Update r =>
      if pk_exists (timestamp r) table then Ok (replace_pk r table)
      else Raise OptimisticCheckError
  end.

Fixpoint flush (ws : list write) (table : list row) : result (list row) :=
  match ws with
  | [] => Ok table
  | w :: ws' => table' <- flush1 w table ;; flush ws' table'
  end.

(** Number of rows stored under a key. *)
Definition rows_at (t : datetime) (table : list row) : nat :=
  List.length (filter (fun h => timestamp h =? t) table).

End Ledger.

Arguments insert_desc {row} timestamp r l.
Arguments order_by_desc {row} timestamp l.
Arguments first {row} l.
Arguments latest_since {row} timestamp limit history.
Arguments at_timestamp {row} timestamp t history.
Arguments pk_exists {row} timestamp t table.
Arguments replace_pk {row} timestamp r table.
Arguments Insert {row} r.
Arguments Update {row} r.
Arguments flush1 {row} timestamp w table.
Arguments flush {row} timestamp ws table.
Arguments rows_at {row} timestamp t table.

(** ** Button and ButtonHistory *)

Module ButtonHistory.

Record t : Type := mk {
  button : string;
  timestamp : datetime;
  value : float
}.

End ButtonHistory.

Module Button.

Definition __MAX_VALUE_AGE : Z := 65 * 60.

Record t : Type := mk {
  id : string;
  hardware : string;
  name : string;
  address : string;
  history : list ButtonHistory.t
}.

Definition with_history (self : t) (h : list ButtonHistory.t) : t :=
  mk (id self) (hardware self) (name self) (address self) h.

Definition value (self : t) (now : datetime) : option float :=
  let timestamp_limit := now - timedelta __MAX_VALUE_AGE in
  match latest_since ButtonHistory.timestamp timestamp_limit (history self) with
  | Some value => Some (ButtonHistory.value value)
  | None => None
  end.

Definition error (self : t) (now : datetime) : bool :=
  match value self now with
  | None => true
  | Some _ => false
  end.

Definition update (self : t) (now : datetime) (new_value : option float)
    (force : bool) : result (option ButtonHistory.t * t) :=
  match new_value with
  | None => Ok (None, self)
  | Some v =>
      if force || ne new_value (value self now) then
        let button_data := ButtonHistory.mk (id self) now v in
        table <- flush ButtonHistory.timestamp [Insert button_data] (history self) ;;
        Ok (Some button_data, with_history self table)
      else Ok (None, self)
  end.

End Button.

(** ** Relay and RelayHistory *)

Module RelayHistory.

Record t : Type := mk {
  relay : string;
  timestamp : datetime;
  value : float;
  wattage : float;
  flow : float
}.

End RelayHistory.

Module Relay.

Definition __MAX_VALUE_AGE : Z := 65 * 60.

Record t : Type := mk {
  id : string;
  hardware : string;
  name : string;
  address : string;
  wattage : float;
  flow : float;
  manual_mode : bool;
  history : list RelayHistory.t
}.

Definition with_history (self : t) (h : list RelayHistory.t) : t :=
  mk (id self) (hardware self) (name self) (address self)
     (wattage self) (flow self) (manual_mode self) h.

Definition value (self : t) (now : datetime) : option float :=
  let timestamp_limit := now - timedelta __MAX_VALUE_AGE in
  match latest_since RelayHistory.timestamp timestamp_limit (history self) with
  | Some value => Some (RelayHistory.value value)
  | None => None
  end.

Definition error (self : t) (now : datetime) : bool :=
  match value self now with
  | None => true
  | Some _ => false
  end.

Definition is_on (self : t) (now : datetime) : bool :=
  match value self now with
  | None => false
  | Some v => float_ltb 0%Qc v
  end.

Definition is_off (self : t) (now : datetime) : bool :=
  negb (is_on self now).

Definition current_wattage (self : t) (now : datetime) : float :=
  match value self now with
  | None => 0%Qc
  | Some v => (v * wattage self / Q2Qc 100)%Qc
  end.

Definition current_flow (self : t) (now : datetime) : float :=
  match value self now with
  | None => 0%Qc
  | Some v => (v * flow self / Q2Qc 100)%Qc
  end.

Definition update (self : t) (now : datetime) (new_value : option float)
    (force : bool) : result (option RelayHistory.t * t) :=
  match new_value with
  | None => Ok (None, self)
  | Some v =>
      if force || ne new_value (value self now) then
        let relay_data :=
          RelayHistory.mk (id self) now v
            ((v / Q2Qc 100) * wattage self)%Qc
            ((v / Q2Qc 100) * flow self)%Qc in
        table <- flush RelayHistory.timestamp [Insert relay_data] (history self) ;;
        Ok (Some relay_data, with_history self table)
      else Ok (None, self)
  end.

End Relay.

(** ** Sensor and SensorHistory *)

Module SensorHistory.

Record t : Type := mk {
  sensor : string;
  timestamp : datetime;
  value : float;
  limit_min : float;
  limit_max : float;
  alarm_min : float;
  alarm_max : float
}.

(** [@property def alarm(): ...]: the getter takes no parameter and its
    body names [self]. The [value] column is required, so the test
    [self.value is None] is false on every row. *)
Definition alarm : function t bool :=
  def []
    (fun variables =>
       self <- variables "self"%string ;;
       Ok (negb (float_leb (alarm_min self) (value self)
                 && float_leb (value self) (alarm_max self)))).

End SensorHistory.

Module Sensor.

Definition __MAX_VALUE_AGE : Z := 5 * 60.

(** Mode 1: only store first value. Mode 2: store average value.
    Mode 3: store last value. *)
Definition __VALUE_MODE : Z := 2.

Record t : Type := mk {
  id : string;
  hardware : string;
  type : string;
  name : string;
  address : string;
  limit_min : float;
  limit_max : float;
  alarm_min : float;
  alarm_max : float;
  max_diff : float;
  exclude_avg : bool;
  history : list SensorHistory.t
}.

Definition with_history (self : t) (h : list SensorHistory.t) : t :=
  mk (id self) (hardware self) (type self) (name self) (address self)
     (limit_min self) (limit_max self) (alarm_min self) (alarm_max self)
     (max_diff self) (exclude_avg self) h.

(** An edit of the configuration: [sensor.alarm_max = m]. *)
Definition set_alarm_max (self : t) (m : float) : t :=
  mk (id self) (hardware self) (type self) (name self) (address self)
     (limit_min self) (limit_max self) (alarm_min self) m
     (max_diff self) (exclude_avg self) (history self).

Definition value (self : t) (now : datetime) : option float :=
  match latest_since SensorHistory.timestamp
          (now - timedelta __MAX_VALUE_AGE) (history self) with
  | Some value => Some (SensorHistory.value value)
  | None => None
  end.

Definition error (self : t) (now : datetime) : bool :=
  match value self now with
  | None => true
  | Some _ => false
  end.

(** [not self.alarm_min <= self.value <= self.alarm_max]; comparing
    [None] with a float is a [TypeError]. *)
Definition alarm (self : t) (now : datetime) : result bool :=
  if error self now then Ok false
  else
    match value self now with
    | Some v => Ok (negb (float_leb (alarm_min self) v && float_leb v (alarm_max self)))
    | None => Raise TypeError
    end.

(** The body of [update] for a reading that is not [None]: the row it
    returns and what it leaves in the session. [sensor_data] is the
    result of the probe of the minute bucket. *)
Definition update_row (self : t) (timestamp : datetime) (value : float)
    (sensor_data : option SensorHistory.t)
    : SensorHistory.t * list (write SensorHistory.t) :=
  match sensor_data with
  | Some sd =>
      if __VALUE_MODE =? 1 then (sd, [])
      else
        let sd' :=
          SensorHistory.mk (SensorHistory.sensor sd) (SensorHistory.timestamp sd)
            (if __VALUE_MODE =? 3 then value
             else (SensorHistory.value sd + value) / Q2Qc 2)%Qc
            (if __VALUE_MODE =? 3 then limit_min self
             else (SensorHistory.limit_min sd + limit_min self) / Q2Qc 2)%Qc
            (if __VALUE_MODE =? 3 then limit_max self
             else (SensorHistory.limit_max sd + limit_max self) / Q2Qc 2)%Qc
            (if __VALUE_MODE =? 3 then alarm_min self
             else (SensorHistory.alarm_min sd + alarm_min self) / Q2Qc 2)%Qc
            (if __VALUE_MODE =? 3 then alarm_max self
             else (SensorHistory.alarm_max sd + alarm_max self) / Q2Qc 2)%Qc in
        (sd', [Update sd'])
  | None =>
      let sd :=
        SensorHistory.mk (id self) timestamp value
          (limit_min self) (limit_max self) (alarm_min self) (alarm_max self) in
      (sd, [Insert sd])
  end.

(** [update] with the table the flush meets given apart from the
    collection the probe has read: the two differ when another writer
    got in between. *)
Definition update_on (self : t) (now : datetime) (value : option float)
    (table : list SensorHistory.t)
    : result (option SensorHistory.t * list SensorHistory.t) :=
  match value with
  | None => Ok (None, table)
  | Some v =>
      let timestamp := replace_second_microsecond_0 now in
      let sensor_data :=
        at_timestamp SensorHistory.timestamp timestamp (history self) in
      let '(sensor_data, session) := update_row self timestamp v sensor_data in
      table' <- flush SensorHistory.timestamp session table ;;
      Ok (Some sensor_data, table')
  end.

Definition update (self : t) (now : datetime) (value : option float)
    : result (option SensorHistory.t * t) :=
  r <- update_on self now value (history self) ;;
  Ok (fst r, with_history self (snd r)).

(** Readings one after the other, each with the clock at its call. *)
Fixpoint updates (self : t) (calls : list (datetime * float)) : result t :=
  match calls with
  | [] => Ok self
  | (now, v) :: calls' =>
      r <- update self now (Some v) ;; updates (snd r) calls'
  end.

End Sensor.

(** ** Strings, paths and identifiers

    A [str] is handled as the list of its characters (8 bits each). *)

Definition chars (s : string) : list ascii := list_ascii_of_string s.

Definition lower_ascii (c : ascii) : ascii :=
  let n := nat_of_ascii c in
  if (Nat.leb 65 n && Nat.leb n 90)%bool then ascii_of_nat (n + 32) else c.

Definition lower (s : list ascii) : list ascii := map lower_ascii s.

Fixpoint startswith (prefix s : list ascii) : bool :=
  match prefix, s with
  | [], _ => true
  | p :: prefix', c :: s' => Ascii.eqb p c && startswith prefix' s'
  | _ :: _, [] => false
  end.

Definition endswith (suffix s : list ascii) : bool :=
  startswith (rev suffix) (rev s).

(** [s.split(sep)] *)
Fixpoint split (sep : ascii) (s : list ascii) : list (list ascii) :=
  match s with
  | [] => [[]]
  | c :: s' =>
      if Ascii.eqb c sep then [] :: split sep s'
      else
        match split sep s' with
        | x :: xs => (c :: x) :: xs
        | [] => [[c]]
        end
  end.

(** [sep.join(l)] *)
Fixpoint join (sep : list ascii) (l : list (list ascii)) : list ascii :=
  match l with
  | [] => []
  | [x] => x
  | x :: l' => x ++ sep ++ join sep l'
  end.

(** [s.lstrip(c)] *)
Fixpoint lstrip (c : ascii) (s : list ascii) : list ascii :=
  match s with
  | x :: s' => if Ascii.eqb x c then lstrip c s' else s
  | [] => []
  end.

(** [s.rfind(c)], with [None] for -1 *)
Fixpoint rfind (c : ascii) (s : list ascii) : option nat :=
  match s with
  | [] => None
  | x :: s' =>
      match rfind c s' with
      | Some i => Some (S i)
      | None => if Ascii.eqb x c then Some O else None
      end
  end.

Definition is_empty (s : list ascii) : bool :=
  match s with
  | [] => true
  | _ :: _ => false
  end.

Definition is_dot (s : list ascii) : bool :=
  match s with
  | [c] => Ascii.eqb c "."
  | _ => false
  end.

Module PurePosixPath.

Record t : Type := mk {
  root : list ascii;
  tail : list (list ascii)
}.

Definition splitroot (part : list ascii) : list ascii * list ascii :=
  match part with
  | c :: _ =>
      if Ascii.eqb c "/" then
        let stripped_part := lstrip "/" part in
        if Nat.eqb (List.length part - List.length stripped_part) 2
        then (chars "//", stripped_part)
        else (chars "/", stripped_part)
      else ([], part)
  | [] => ([], part)
  end.

(** [Path(s)] *)
Definition parse (s : list ascii) : t :=
  let '(root, rel) := splitroot s in
  mk root (filter (fun x => negb (is_empty x) && negb (is_dot x)) (split "/" rel)).

(** [str(path)] *)
Definition str (p : t) : list ascii :=
  match root p ++ join (chars "/") (tail p) with
  | [] => chars "."
  | s => s
  end.

Definition parent (p : t) : t :=
  match tail p with
  | [] => p
  | _ :: _ => mk (root p) (removelast (tail p))
  end.

Definition name (p : t) : list ascii := last (tail p) [].

Definition suffix (p : t) : list ascii :=
  let name := name p in
  match rfind "." name with
  | Some i =>
      if (Nat.ltb 0 i && Nat.ltb i (List.length name - 1))%bool
      then skipn i name
      else []
  | None => []
  end.

End PurePosixPath.

Module UUID.

(** A UUID is its 128-bit integer. *)
Record t : Type := mk { int : N }.

Definition hexdigit (d : N) : ascii :=
  nth (N.to_nat d) (chars "0123456789abcdef") "0"%char.

(** ['%0<width>x' % n] for [n] below [16 ^ width] *)
Fixpoint hex (width : nat) (n : N) : list ascii :=
  match width with
  | O => []
  | S w => hex w (n / 16)%N ++ [hexdigit (n mod 16)%N]
  end.

(** [str(uuid)] *)
Definition str (u : t) : list ascii :=
  let h := hex 32 (int u) in
  firstn 8 h ++ chars "-" ++ firstn 4 (skipn 8 h) ++ chars "-"
  ++ firstn 4 (skipn 12 h) ++ chars "-" ++ firstn 4 (skipn 16 h)
  ++ chars "-" ++ skipn 20 h.

End UUID.

(** ** Enclosure *)

Module Enclosure.

Record t : Type := mk {
  id : UUID.t;
  name : string;
  image : string;
  description : string
}.

Definition with_image (self : t) (image_name : string) : t :=
  mk (id self) (name self) image_name (description self).

Definition extensions : list (list ascii) :=
  [chars "jpg"; chars "jpeg"; chars "gif"; chars "png"].

(** [re.compile(f'{id}\.(jpg|jpeg|gif|png)$', re.IGNORECASE).search(s)]:
    the text of a UUID has no character that is special in a pattern, and
    [$] stands at the end of [s] or before a newline that ends it. *)
Definition regex_search (id : list ascii) (s : list ascii) : bool :=
  existsb
    (fun ext =>
       let literal := lower (id ++ chars "." ++ ext) in
       endswith literal (lower s)
       || endswith (literal ++ [ascii_of_nat 10]) (lower s))
    extensions.

Section Files.

(** The files on disk and [os.rename], which the module only calls. *)
Variable filesystem : Type.
Variable rename : list ascii -> list ascii -> filesystem -> result filesystem.

Definition __rename_image (self : t) (fs : filesystem)
    : result (t * filesystem) :=
  if regex_search (UUID.str (id self)) (chars (image self)) then Ok (self, fs)
  else
    let image := PurePosixPath.parse (chars (image self)) in
    let image_name :=
      PurePosixPath.str (PurePosixPath.parent image) ++ chars "/"
      ++ UUID.str (id self) ++ PurePosixPath.suffix image in
    fs' <- rename (PurePosixPath.str image) image_name fs ;;
    Ok (with_image self (string_of_list_ascii image_name), fs').

Definition before_insert (self : t) (fs : filesystem) : result (t * filesystem) :=
  __rename_image self fs.

Definition before_update (self : t) (fs : filesystem) : result (t * filesystem) :=
  __rename_image self fs.

End Files.

End Enclosure.

(** ** Setting and create_defaults *)

Module Setting.

Record t : Type := mk {
  id : string;
  value : string
}.

End Setting.

Definition exn_eqb (a b : exn) : bool :=
  match a, b with
  | TransactionIntegrityError, TransactionIntegrityError
  | OptimisticCheckError, OptimisticCheckError
  | TypeError, TypeError
  | NameError, NameError
  | OSError, OSError => true
  | _, _ => false
  end.

(** [try: body except e: handler] *)
Definition try_except {A : Type} (body : result A) (e : exn) (handler : result A)
    : result A :=
  match body with
  | Ok a => Ok a
  | Raise e' => if exn_eqb e' e then handler else Raise e'
  end.

Definition setting_exists (id : string) (table : list Setting.t) : bool :=
  existsb (fun s => String.eqb (Setting.id s) id) table.

(** [Setting( **setting); orm.commit()]: the primary key [id] refuses a
    second row. *)
Definition create_setting (setting : Setting.t) (table : list Setting.t)
    : result (list Setting.t) :=
  if setting_exists (Setting.id setting) table then Raise TransactionIntegrityError
  else Ok (table ++ [setting]).

Section Defaults.

(** [terrariumUtils.generate_password], of another module. *)
Variable generate_password : string -> string.

Definition setting_defaults : list Setting.t :=
  [ Setting.mk "host" "0.0.0.0";
    Setting.mk "port" "8090";
    Setting.mk "pi_wattage" "5";
    Setting.mk "username" "admin";
    Setting.mk "password" (generate_password "password");
    Setting.mk "profile_image" "/static/assets/img/profile_image.jpg";
    Setting.mk "always_authenticate" "false";
    Setting.mk "language" "EN";
    Setting.mk "title" "TerrariumPI";
    Setting.mk "exclude_ids" "";
    Setting.mk "power_price" "0";
    Setting.mk "water_price" "0";
    Setting.mk "meross_cloud_username" "";
    Setting.mk "meross_cloud_password" "";
    Setting.mk "wind_speed_indicator" "km/h";
    Setting.mk "temperature_indicator" "celsius";
    Setting.mk "distance_indicator" "cm";
    Setting.mk "water_volume_indicator" "l";
    Setting.mk "show_min_max_gauge" "false";
    Setting.mk "hide_environment_dashboard" "false";
    Setting.mk "all_gauges_on_single_page" "false";
    Setting.mk "graph_smooth_value" "0" ].

(** The loop of [create_defaults] over a list of defaults. *)
Fixpoint create_settings (defaults : list Setting.t) (table : list Setting.t)
    : result (list Setting.t) :=
  match defaults with
  | [] => Ok table
  | setting :: defaults' =>
      table' <- try_except (create_setting setting table)
                  TransactionIntegrityError (Ok table) ;;
      create_settings defaults' table'
  end.

Definition create_defaults (table : list Setting.t) : result (list Setting.t) :=
  create_settings setting_defaults table.

End Defaults.

(** ** Notions of the specification *)

Definition average (a b : float) : float := ((a + b) / Q2Qc 2)%Qc.

(** The cumulative pairwise average of readings in call order:
    [((v1 + v2) / 2 + v3) / 2 ...]. *)
Definition cumulative_average (first_reading : float) (later : list float) : float :=
  fold_left average later first_reading.

(** Calls whose clock falls in the minute that starts at [bucket]. *)
Definition same_bucket (bucket : datetime) (calls : list (datetime * float)) : Prop :=
  Forall (fun c => replace_second_microsecond_0 (fst c) = bucket) calls.

(** The row a merge in running-average mode leaves. *)
Definition averaged (self : Sensor.t) (sd : SensorHistory.t) (v : float)
    : SensorHistory.t :=
  SensorHistory.mk (SensorHistory.sensor sd) (SensorHistory.timestamp sd)
    (average (SensorHistory.value sd) v)
    (average (SensorHistory.limit_min sd) (Sensor.limit_min self))
    (average (SensorHistory.limit_max sd) (Sensor.limit_max self))
    (average (SensorHistory.alarm_min sd) (Sensor.alarm_min self))
    (average (SensorHistory.alarm_max sd) (Sensor.alarm_max self)).

(** The row of a first reading of a bucket. *)
Definition verbatim (self : Sensor.t) (bucket : datetime) (v : float)
    : SensorHistory.t :=
  SensorHistory.mk (Sensor.id self) bucket v
    (Sensor.limit_min self) (Sensor.limit_max self)
    (Sensor.alarm_min self) (Sensor.alarm_max self).

(** A timestamp within the staleness window of [seconds] before [now]: the
    row is at most that old (the window is the maximum age of a row). For a
    timestamp that is not later than [now] this is
    [now - seconds <= t <= now]. *)
Definition within_window (seconds : Z) (now t : datetime) : Prop :=
  now - t <= timedelta seconds.

(** [r] is the most recent of the rows of [history] within the window. *)
Definition most_recent_within {row : Type} (timestamp : row -> datetime)
    (seconds : Z) (now : datetime) (history : list row) (r : row) : Prop :=
  In r history /\
  within_window seconds now (timestamp r) /\
  forall x, In x history -> within_window seconds now (timestamp x) ->
            timestamp x <= timestamp r.

(** [current] is the current value that the rows of [history] give at
    [now] under a window of [seconds]: the value of the most recent row
    within the window, and [None] when no row is within it. *)
Definition current_value_of {row : Type} (timestamp : row -> datetime)
    (val : row -> float) (seconds : Z) (now : datetime) (history : list row)
    (current : option float) : Prop :=
  (forall v, current = Some v ->
     exists r, most_recent_within timestamp seconds now history r /\ val r = v) /\
  (current = None <->
     forall x, In x history -> ~ within_window seconds now (timestamp x)) /\
  (history = [] -> current = None).

(** The primary key [(owner, timestamp)] on one owner's rows. *)
Definition unique_timestamps {row : Type} (timestamp : row -> datetime)
    (history : list row) : Prop :=
  NoDup (map timestamp history).

(** No row is later than the clock: rows are stamped with the clock (or its
    minute) at their creation, and the clock does not go back. *)
Definition in_the_past {row : Type} (timestamp : row -> datetime)
    (now : datetime) (history : list row) : Prop :=
  forall x, In x history -> timestamp x <= now.

(** The thresholds a row has recorded, replaced. *)
Definition with_snapshot (limit_min limit_max alarm_min alarm_max : float)
    (r : SensorHistory.t) : SensorHistory.t :=
  SensorHistory.mk (SensorHistory.sensor r) (SensorHistory.timestamp r)
    (SensorHistory.value r) limit_min limit_max alarm_min alarm_max.

(** The number of history rows that two calls of [Relay.update] with the
    same value, one after the other, have added; [None] when a call raised. *)
Definition rows_of_two_calls (self : Relay.t) (now1 now2 : datetime)
    (v : float) (force : bool) : option nat :=
  match Relay.update self now1 (Some v) force with
  | Ok (_, self1) =>
      match Relay.update self1 now2 (Some v) force with
      | Ok (_, self2) =>
          Some (List.length (Relay.history self2) - List.length (Relay.history self))%nat
      | Raise _ => None
      end
  | Raise _ => None
  end.

(** A character that neither separates path components nor starts a
    suffix. *)
Definition plain (c : ascii) : bool :=
  negb (Ascii.eqb c "/") && negb (Ascii.eqb c ".").

(** No character of [s] is [c]. *)
Definition without (c : ascii) (s : list ascii) : bool :=
  forallb (fun x => negb (Ascii.eqb x c)) s.

(** The characters of the text of a UUID. *)
Definition uuid_alphabet : list ascii := chars "0123456789abcdef-".

(** The stored image is named after the enclosure: up to the case of
    letters, it ends with the text of [id] followed by [extension]. *)
Definition named_after (id : UUID.t) (extension : list ascii) (image : string) : Prop :=
  endswith (lower (UUID.str id ++ extension)) (lower (chars image)) = true.

(** Every row of a sensor history starts a minute. *)
Definition on_the_minute (history : list SensorHistory.t) : Prop :=
  forall x, In x history -> SensorHistory.timestamp x mod timedelta 60 = 0.

(** The value stored under a key of the settings table. *)
Definition setting_value (id : string) (table : list Setting.t) : option string :=
  option_map Setting.value
    (find (fun s => String.eqb (Setting.id s) id) table).

(** [lo <= v <= hi] *)
Definition between (lo hi v : float) : Prop := (lo <= v)%Qc /\ (v <= hi)%Qc.

(** A suffix the image pattern accepts: [.jpg], [.jpeg], [.gif] or [.png]
    in any case of letters. *)
Definition supported (extension : list ascii) : Prop :=
  In (lower extension) (map (fun ext => chars "." ++ ext) Enclosure.extensions).

(** The greatest finite binary64 number, [(2^53 - 1) * 2^971]. *)
Definition float_max : Q := inject_Z ((2 ^ 53 - 1) * 2 ^ 971).

(** [x] is at most half the greatest finite float in magnitude. In
    binary64 the sum of two such numbers is finite; [x + x] is then exact
    and its half is [x], and the half of the sum of two of them lies
    between them. Beyond that bound the sum is [inf] in the code, which the
    rationals of the embedding do not show. *)
Definition no_overflow (x : float) : Prop :=
  (- (float_max / 2) <= this x)%Q /\ (this x <= float_max / 2)%Q.

(** The configured thresholds of a sensor are within that bound. *)
Definition thresholds_no_overflow (self : Sensor.t) : Prop :=
  no_overflow (Sensor.limit_min self) /\ no_overflow (Sensor.limit_max self) /\
  no_overflow (Sensor.alarm_min self) /\ no_overflow (Sensor.alarm_max self).

(** ** Sample entities *)

Definition fl (q : Q) : float := Q2Qc q.

Arguments fl : simpl never.
Arguments Q2Qc : simpl never.
Arguments timedelta : simpl never.

(** 2020-01-01 00:00:00 in microseconds since [datetime.min]. *)
Definition t0 : datetime := 63713433600 * 1000000.

Arguments t0 : simpl never.

Definition sensor0 : Sensor.t :=
  Sensor.mk "28-0317607252ff" "w1" "temperature" "basking spot" "28-0317607252ff"
    (fl 0) (fl 100) (fl 18) (fl 35) (fl 0) false [].

Definition relay0 : Relay.t :=
  Relay.mk "relay1" "gpio" "heat lamp" "17" (fl 60) (fl 0) false [].

Definition button0 : Button.t :=
  Button.mk "door1" "magnetic" "front door" "27" [].

(** A sensor whose current minute already holds a row. *)
Definition sensor1 : Sensor.t :=
  Sensor.with_history sensor0
    [SensorHistory.mk "28-0317607252ff" t0 (fl 10) (fl 0) (fl 100) (fl 20) (fl 30)].

(** A sensor with two readings, two minutes apart. *)
Definition sensor2 : Sensor.t :=
  Sensor.with_history sensor0
    [SensorHistory.mk "28-0317607252ff" t0 (fl 10) (fl 0) (fl 100) (fl 18) (fl 35);
     SensorHistory.mk "28-0317607252ff" (t0 + timedelta 120) (fl 33)
       (fl 0) (fl 100) (fl 18) (fl 35)].

(** A relay switched on at [t0] and not heard of since. *)
Definition relay1 : Relay.t :=
  Relay.with_history relay0 [RelayHistory.mk "relay1" t0 (fl 100) (fl 60) (fl 0)].

(** A directory as the list of its file names, with a rename that needs its
    source to be there. *)
Definition files : Type := list string.

Definition rename_file (src dst : list ascii) (fs : files) : result files :=
  if existsb (String.eqb (string_of_list_ascii src)) fs
  then Ok (string_of_list_ascii dst
           :: filter (fun f => negb (String.eqb (string_of_list_ascii src) f)) fs)
  else Raise OSError.

Definition enclosure0 : Enclosure.t :=
  Enclosure.mk (UUID.mk 0x12345678123456781234567812345678) "desert"
    "media/gecko.JPG" "leopard geckos".

(** An enclosure whose image file carries its id in capital letters. *)
Definition enclosure1 : Enclosure.t :=
  Enclosure.mk (UUID.mk 0xabcdef12345678901234567890abcdef) "rainforest"
    "media/ABCDEF12-3456-7890-1234-567890ABCDEF.JPG" "dart frogs".

(** A settings table in which the port was changed and the title removed. *)
Definition settings0 : list Setting.t :=
  [Setting.mk "port" "8443"; Setting.mk "host" "0.0.0.0"].

(** An enclosure that has no image. *)
Definition enclosure2 : Enclosure.t :=
  Enclosure.mk (UUID.mk 0x12345678123456781234567812345678) "empty" "" "".

(** * Properties *)

(** ** The storage layer *)

Lemma bind_Ok {A B : Type} (m : result A) (k : A -> result B) (b : B) :
  bind m k = Ok b -> exists a, m = Ok a /\ k a = Ok b.
Proof.
  destruct m as [a|e]; simpl; intros H; [eauto | discriminate].
Qed.

Section LedgerFacts.

Variable row : Type.
Variable timestamp : row -> datetime.

Lemma first_insert_desc (r : row) (l : list row) :
  first (insert_desc timestamp r l) =
  match first l with
  | None => Some r
  | Some x => if timestamp x <=? timestamp r then Some r else Some x
  end.
Proof.
  destruct l as [|x l]; simpl; [reflexivity|].
  destruct (timestamp x <=? timestamp r); reflexivity.
Qed.

Lemma first_order_by_desc_None (l : list row) :
  first (order_by_desc timestamp l) = None <-> l = [].
Proof.
  split; [|intros ->; reflexivity].
  destruct l as [|a l]; [reflexivity|].
  simpl. rewrite first_insert_desc.
  destruct (first (order_by_desc timestamp l)) as [x|]; [|discriminate].
  destruct (timestamp x <=? timestamp a); discriminate.
Qed.

Lemma first_order_by_desc_Some (l : list row) (r : row) :
  first (order_by_desc timestamp l) = Some r ->
  In r l /\ forall x, In x l -> timestamp x <= timestamp r.
Proof.
  revert r. induction l as [|a l IH]; intros r; [discriminate|].
  simpl. rewrite first_insert_desc.
  destruct (first (order_by_desc timestamp l)) as [x|] eqn:E.
  - destruct (IH x eq_refl) as [Hin Hmax].
    destruct (timestamp x <=? timestamp a) eqn:C; intros [= <-].
    + apply Z.leb_le in C. split; [now left|].
      intros y [<-|Hy]; [lia|]. specialize (Hmax y Hy). lia.
    + apply Z.leb_gt in C. split; [now right|].
      intros y [<-|Hy]; [lia|]. now apply Hmax.
  - apply first_order_by_desc_None in E. subst l.
    intros [= <-]. split; [now left|].
    intros y [<-|[]]. lia.
Qed.

(** The row a [value] property reads is a row of the history, not older
    than the limit, and no row of the history that is not older than the
    limit is later. *)
Lemma latest_since_Some (limit : datetime) (h : list row) (r : row) :
  latest_since timestamp limit h = Some r ->
  In r h /\ limit <= timestamp r /\
  forall x, In x h -> limit <= timestamp x -> timestamp x <= timestamp r.
Proof.
  unfold latest_since. intros H.
  apply first_order_by_desc_Some in H. destruct H as [Hin Hmax].
  apply filter_In in Hin. destruct Hin as [Hin Hl].
  apply Z.leb_le in Hl. repeat split; trivial.
  intros x Hx Hlx. apply Hmax. apply filter_In. split; trivial.
  now apply Z.leb_le.
Qed.

Lemma latest_since_None (limit : datetime) (h : list row) :
  latest_since timestamp limit h = None <->
  forall x, In x h -> timestamp x < limit.
Proof.
  unfold latest_since. rewrite first_order_by_desc_None. split.
  - intros H x Hx.
    destruct (Z.ltb_spec (timestamp x) limit) as [|C]; trivial.
    assert (Hf : In x (filter (fun h0 => limit <=? timestamp h0) h)).
    { apply filter_In. split; trivial. now apply Z.leb_le. }
    rewrite H in Hf. destruct Hf.
  - intros H.
    destruct (filter (fun h0 => limit <=? timestamp h0) h) as [|x l] eqn:E;
      trivial.
    assert (Hf : In x (filter (fun h0 => limit <=? timestamp h0) h)).
    { rewrite E. now left. }
    apply filter_In in Hf. destruct Hf as [Hx Hl].
    apply Z.leb_le in Hl. specialize (H x Hx). lia.
Qed.

(** A row appended with a timestamp above all others is the latest. *)
Lemma latest_since_newest (limit : datetime) (h : list row) (r : row) :
  limit <= timestamp r ->
  (forall x, In x h -> timestamp x < timestamp r) ->
  latest_since timestamp limit (h ++ [r]) = Some r.
Proof.
  intros Hl Hnew.
  destruct (latest_since timestamp limit (h ++ [r])) as [r'|] eqn:E.
  - apply latest_since_Some in E. destruct E as (Hin & _ & Hmax).
    apply in_app_iff in Hin. destruct Hin as [Hin|[<-|[]]]; trivial.
    specialize (Hnew r' Hin).
    assert (timestamp r <= timestamp r').
    { apply Hmax; trivial. apply in_app_iff. right. now left. }
    lia.
  - exfalso.
    assert (timestamp r < limit); [|lia].
    apply (proj1 (latest_since_None limit (h ++ [r])) E).
    apply in_app_iff. right. now left.
Qed.

Lemma pk_exists_false (t : datetime) (h : list row) :
  pk_exists timestamp t h = false <-> forall x, In x h -> timestamp x <> t.
Proof.
  unfold pk_exists. split.
  - intros H x Hx Heq.
    assert (existsb (fun h0 => timestamp h0 =? t) h = true); [|congruence].
    apply existsb_exists. exists x. split; trivial. now apply Z.eqb_eq.
  - intros H.
    destruct (existsb (fun h0 => timestamp h0 =? t) h) eqn:E; trivial.
    apply existsb_exists in E. destruct E as (x & Hx & Heq).
    apply Z.eqb_eq in Heq. now destruct (H x Hx).
Qed.

Lemma at_timestamp_None (t : datetime) (h : list row) :
  at_timestamp timestamp t h = None <-> pk_exists timestamp t h = false.
Proof.
  unfold at_timestamp, pk_exists.
  induction h as [|x h IH]; simpl; [tauto|].
  destruct (timestamp x =? t); simpl; [|exact IH].
  split; discriminate.
Qed.

Lemma at_timestamp_Some (t : datetime) (h : list row) (r : row) :
  at_timestamp timestamp t h = Some r ->
  In r h /\ timestamp r = t /\ pk_exists timestamp t h = true.
Proof.
  intros H.
  assert (Hin : In r (filter (fun h0 => timestamp h0 =? t) h)).
  { unfold at_timestamp in H.
    destruct (filter (fun h0 => timestamp h0 =? t) h); [discriminate|].
    injection H as ->. now left. }
  apply filter_In in Hin. destruct Hin as [Hin Ht].
  apply Z.eqb_eq in Ht. repeat split; trivial.
  destruct (pk_exists timestamp t h) eqn:E; trivial.
  apply at_timestamp_None in E. congruence.
Qed.

Lemma rows_at_0 (t : datetime) (h : list row) :
  pk_exists timestamp t h = false -> rows_at timestamp t h = O.
Proof.
  unfold rows_at, pk_exists.
  induction h as [|x h IH]; simpl; trivial.
  destruct (timestamp x =? t); simpl; [discriminate | exact IH].
Qed.

Lemma rows_at_app (t : datetime) (h1 h2 : list row) :
  rows_at timestamp t (h1 ++ h2) = (rows_at timestamp t h1 + rows_at timestamp t h2)%nat.
Proof.
  unfold rows_at. now rewrite filter_app, length_app.
Qed.

(** An inserted row is the only row of its key and the row a probe of
    its key finds. *)
Lemma insert_fresh (r : row) (h : list row) :
  pk_exists timestamp (timestamp r) h = false ->
  rows_at timestamp (timestamp r) (h ++ [r]) = 1%nat /\
  at_timestamp timestamp (timestamp r) (h ++ [r]) = Some r.
Proof.
  intros H. split.
  - rewrite rows_at_app, (rows_at_0 _ _ H).
    unfold rows_at. simpl. now rewrite Z.eqb_refl.
  - apply at_timestamp_None in H.
    unfold at_timestamp in *. rewrite filter_app.
    destruct (filter (fun h0 => timestamp h0 =? timestamp r) h);
      [|discriminate].
    simpl. now rewrite Z.eqb_refl.
Qed.

(** An update in place keeps the number of rows of every key and is what
    a probe of the key finds afterwards. *)
Lemma replace_pk_rows_at (r : row) (h : list row) (t : datetime) :
  rows_at timestamp t (replace_pk timestamp r h) = rows_at timestamp t h.
Proof.
  unfold rows_at.
  induction h as [|x h IH]; simpl; trivial.
  destruct (timestamp x =? timestamp r) eqn:E; simpl.
  - apply Z.eqb_eq in E. rewrite E.
    destruct (timestamp r =? t); reflexivity.
  - destruct (timestamp x =? t); simpl; now rewrite IH.
Qed.

Lemma replace_pk_at_timestamp (r : row) (h : list row) :
  pk_exists timestamp (timestamp r) h = true ->
  at_timestamp timestamp (timestamp r) (replace_pk timestamp r h) = Some r.
Proof.
  unfold at_timestamp, pk_exists.
  induction h as [|x h IH]; simpl; [discriminate|].
  destruct (timestamp x =? timestamp r) eqn:E; simpl.
  - now rewrite Z.eqb_refl.
  - rewrite E. exact IH.
Qed.

Lemma replace_pk_length (r : row) (h : list row) :
  List.length (replace_pk timestamp r h) = List.length h.
Proof.
  induction h as [|x h IH]; simpl; trivial.
  destruct (timestamp x =? timestamp r); simpl; congruence.
Qed.

End LedgerFacts.

(** ** Sensor.update *)

Lemma Sensor_update_merge (self : Sensor.t) (now : datetime) (v : float)
    (sd : SensorHistory.t) :
  at_timestamp SensorHistory.timestamp (replace_second_microsecond_0 now)
    (Sensor.history self) = Some sd ->
  Sensor.update self now (Some v) =
  Ok (Some (averaged self sd v),
      Sensor.with_history self
        (replace_pk SensorHistory.timestamp (averaged self sd v) (Sensor.history self))).
Proof.
  intros H. unfold Sensor.update, Sensor.update_on. rewrite H.
  apply at_timestamp_Some in H. destruct H as (_ & Ht & Hpk).
  rewrite <- Ht in Hpk. simpl. rewrite Hpk. reflexivity.
Qed.

Lemma Sensor_update_create (self : Sensor.t) (now : datetime) (v : float) :
  at_timestamp SensorHistory.timestamp (replace_second_microsecond_0 now)
    (Sensor.history self) = None ->
  Sensor.update self now (Some v) =
  Ok (Some (verbatim self (replace_second_microsecond_0 now) v),
      Sensor.with_history self
        (Sensor.history self ++ [verbatim self (replace_second_microsecond_0 now) v])).
Proof.
  intros H. unfold Sensor.update, Sensor.update_on. rewrite H.
  apply at_timestamp_None in H. simpl. rewrite H. reflexivity.
Qed.

Lemma Sensor_updates_merge (bucket : datetime) (calls : list (datetime * float)) :
  forall (self : Sensor.t) (sd : SensorHistory.t),
    same_bucket bucket calls ->
    at_timestamp SensorHistory.timestamp bucket (Sensor.history self) = Some sd ->
    exists h' sd',
      Sensor.updates self calls = Ok (Sensor.with_history self h') /\
      rows_at SensorHistory.timestamp bucket h' =
        rows_at SensorHistory.timestamp bucket (Sensor.history self) /\
      at_timestamp SensorHistory.timestamp bucket h' = Some sd' /\
      SensorHistory.value sd' = cumulative_average (SensorHistory.value sd) (map snd calls).
Proof.
  induction calls as [|[now v] calls IH]; intros self sd Hb Hsd.
  - exists (Sensor.history self), sd. destruct self. simpl. auto.
  - inversion Hb as [|c cs Hnow Hrest]; subst c cs. simpl in Hnow.
    assert (Hsd' := Hsd). rewrite <- Hnow in Hsd'.
    simpl. rewrite (Sensor_update_merge self now v sd Hsd'). simpl.
    destruct (at_timestamp_Some _ _ _ _ _ Hsd) as (_ & Ht & Hpk).
    set (sd1 := averaged self sd v).
    set (self1 := Sensor.with_history self _).
    assert (H1 : at_timestamp SensorHistory.timestamp bucket (Sensor.history self1)
                 = Some sd1).
    { simpl. rewrite <- Ht.
      apply (replace_pk_at_timestamp _ SensorHistory.timestamp sd1).
      simpl. now rewrite Ht. }
    destruct (IH self1 sd1 Hrest H1) as (h' & sd' & Hu & Hrows & Hat & Hval).
    exists h', sd'. repeat split; trivial.
    + rewrite Hrows. simpl. apply replace_pk_rows_at.
Qed.

(** C1. In running-average mode a reading that meets a row of its minute
    bucket replaces the stored value by the average of the stored value and
    the reading, and each stored threshold by its average with the sensor's
    configured threshold; a reading that meets no row creates one with the
    reading and the configured thresholds as they are. Hence after any
    number of readings in one minute, the first of which met no row, the
    bucket holds exactly one row, whose value is the cumulative pairwise
    average of the readings in call order. *)
Theorem sensor_update_running_average (self : Sensor.t) (now : datetime) (v : float) :
  let bucket := replace_second_microsecond_0 now in
  let history := Sensor.history self in
  (forall sd : SensorHistory.t,
      at_timestamp SensorHistory.timestamp bucket history = Some sd ->
      exists self',
        Sensor.update self now (Some v) = Ok (Some (averaged self sd v), self') /\
        at_timestamp SensorHistory.timestamp bucket (Sensor.history self')
          = Some (averaged self sd v) /\
        rows_at SensorHistory.timestamp bucket (Sensor.history self')
          = rows_at SensorHistory.timestamp bucket history /\
        List.length (Sensor.history self') = List.length history) /\
  (at_timestamp SensorHistory.timestamp bucket history = None ->
   exists self',
     Sensor.update self now (Some v) = Ok (Some (verbatim self bucket v), self') /\
     Sensor.history self' = history ++ [verbatim self bucket v] /\
     rows_at SensorHistory.timestamp bucket (Sensor.history self') = 1%nat) /\
  (forall later : list (datetime * float),
      at_timestamp SensorHistory.timestamp bucket history = None ->
      same_bucket bucket later ->
      exists self' sd,
        Sensor.updates self ((now, v) :: later) = Ok self' /\
        rows_at SensorHistory.timestamp bucket (Sensor.history self') = 1%nat /\
        at_timestamp SensorHistory.timestamp bucket (Sensor.history self') = Some sd /\
        SensorHistory.value sd = cumulative_average v (map snd later)).
Proof.
  intros bucket history. repeat split.
  - intros sd Hsd. eexists. split; [apply Sensor_update_merge; exact Hsd|].
    destruct (at_timestamp_Some _ _ _ _ _ Hsd) as (_ & Ht & Hpk).
    simpl. repeat split.
    + fold history. rewrite <- Ht.
      apply (replace_pk_at_timestamp _ SensorHistory.timestamp (averaged self sd v)).
      simpl. now rewrite Ht.
    + apply replace_pk_rows_at.
    + apply replace_pk_length.
  - intros Hnone. eexists. split; [apply Sensor_update_create; exact Hnone|].
    simpl. split; trivial.
    apply at_timestamp_None in Hnone.
    apply (insert_fresh _ SensorHistory.timestamp (verbatim self bucket v)).
    exact Hnone.
  - intros later Hnone Hb.
    simpl. rewrite (Sensor_update_create self now v Hnone). simpl.
    fold bucket. fold history.
    set (sd0 := verbatim self bucket v).
    apply at_timestamp_None in Hnone.
    destruct (insert_fresh _ SensorHistory.timestamp sd0 history Hnone)
      as [Hrows Hat].
    destruct (Sensor_updates_merge bucket later
                (Sensor.with_history self (history ++ [sd0])) sd0 Hb Hat)
      as (h' & sd' & Hu & Hr & Hat' & Hval).
    exists (Sensor.with_history self h'), sd'. repeat split; trivial.
    simpl. rewrite Hr. exact Hrows.
Qed.

Lemma sensor_update_running_average_witness :
  (exists self',
      Sensor.update sensor1 (t0 + timedelta 42) (Some (fl 20))
      = Ok (Some (SensorHistory.mk "28-0317607252ff" t0
                    (fl 15) (fl 0) (fl 100) (fl 19) (fl 32.5)), self')) /\
  (exists self' sd,
      Sensor.updates sensor0
        [(t0 + timedelta 5, fl 10); (t0 + timedelta 20, fl 20);
         (t0 + timedelta 60 - 1, fl 30)] = Ok self' /\
      rows_at SensorHistory.timestamp t0 (Sensor.history self') = 1%nat /\
      at_timestamp SensorHistory.timestamp t0 (Sensor.history self') = Some sd /\
      SensorHistory.value sd = fl 22.5 /\
      SensorHistory.value sd <> fl 20).
Proof.
  split.
  - destruct (sensor_update_running_average sensor1 (t0 + timedelta 42) (fl 20))
      as (Hmerge & _ & _).
    destruct (Hmerge (SensorHistory.mk "28-0317607252ff" t0
                        (fl 10) (fl 0) (fl 100) (fl 20) (fl 30)) eq_refl)
      as (self' & Hu & _).
    exists self'. rewrite Hu. unfold averaged. simpl.
    do 4 f_equal; apply Qc_is_canon; reflexivity.
  - destruct (sensor_update_running_average sensor0 (t0 + timedelta 5) (fl 10))
      as (_ & _ & Hseq).
    destruct (Hseq [(t0 + timedelta 20, fl 20); (t0 + timedelta 60 - 1, fl 30)])
      as (self' & sd & Hu & Hrows & Hat & Hval).
    + reflexivity.
    + repeat constructor.
    + exists self', sd. repeat split; trivial.
      * rewrite Hval. apply Qc_is_canon. reflexivity.
      * rewrite Hval. intros H. apply (f_equal Qcanon.this) in H.
        vm_compute in H. discriminate H.
Defined.

(** ** The current value *)

Lemma float_leb_le (a b : float) : float_leb a b = true <-> (a <= b)%Qc.
Proof. unfold float_leb, Qcle. apply Qle_bool_iff. Qed.

Lemma float_ltb_lt (a b : float) : float_ltb a b = true <-> (a < b)%Qc.
Proof.
  unfold float_ltb, Qclt. rewrite negb_true_iff. split.
  - intros H. apply Qnot_le_lt. intros C. apply Qle_bool_iff in C. congruence.
  - intros H. destruct (Qle_bool b a) eqn:E; trivial.
    apply Qle_bool_iff in E. now apply Qlt_not_le in H.
Qed.

Lemma float_eqb_eq (a b : float) : float_eqb a b = true <-> a = b.
Proof.
  unfold float_eqb. rewrite Qeq_bool_iff. split.
  - apply Qc_is_canon.
  - intros ->. reflexivity.
Qed.

Section CurrentRow.

Variable row : Type.
Variable timestamp : row -> datetime.
Variables (seconds : Z) (now : datetime).

Lemma latest_since_most_recent (h : list row) (r : row) :
  latest_since timestamp (now - timedelta seconds) h = Some r ->
  most_recent_within timestamp seconds now h r.
Proof.
  intros H. apply latest_since_Some in H. destruct H as (Hin & Hl & Hmax).
  unfold most_recent_within, within_window. repeat split; trivial; [lia|].
  intros x Hx Hw. apply Hmax; trivial. lia.
Qed.

Lemma latest_since_stale (h : list row) :
  latest_since timestamp (now - timedelta seconds) h = None <->
  forall x, In x h -> ~ within_window seconds now (timestamp x).
Proof.
  rewrite latest_since_None. unfold within_window.
  split; intros H x Hx; specialize (H x Hx); lia.
Qed.

Lemma unique_timestamps_eq (h : list row) (x y : row) :
  unique_timestamps timestamp h ->
  In x h -> In y h -> timestamp x = timestamp y -> x = y.
Proof.
  unfold unique_timestamps.
  induction h as [|a h IH]; simpl; intros Hnd Hx Hy Heq; [contradiction|].
  inversion Hnd as [|t l Hnotin Hnd']; subst.
  destruct Hx as [<-|Hx], Hy as [<-|Hy]; trivial.
  - exfalso. apply Hnotin. rewrite Heq. now apply in_map.
  - exfalso. apply Hnotin. rewrite <- Heq. now apply in_map.
  - now apply IH.
Qed.

Lemma most_recent_latest_since (h : list row) (r : row) :
  unique_timestamps timestamp h ->
  most_recent_within timestamp seconds now h r ->
  latest_since timestamp (now - timedelta seconds) h = Some r.
Proof.
  intros Hu (Hin & Hw & Hmax).
  destruct (latest_since timestamp (now - timedelta seconds) h) as [r'|] eqn:E.
  - f_equal. apply latest_since_most_recent in E.
    destruct E as (Hin' & Hw' & Hmax').
    apply (unique_timestamps_eq h); trivial.
    specialize (Hmax r' Hin' Hw'). specialize (Hmax' r Hin Hw). lia.
  - exfalso. exact (proj1 (latest_since_stale h) E r Hin Hw).
Qed.

End CurrentRow.

Lemma latest_since_map {row : Type} (timestamp : row -> datetime)
    (f : row -> row) (limit : datetime) (h : list row) :
  (forall x, timestamp (f x) = timestamp x) ->
  latest_since timestamp limit (map f h) =
  option_map f (latest_since timestamp limit h).
Proof.
  intros Hf. unfold latest_since.
  assert (Hfilter : forall l,
             filter (fun x => limit <=? timestamp x) (map f l)
             = map f (filter (fun x => limit <=? timestamp x) l)).
  { induction l as [|a l IH]; simpl; trivial.
    rewrite Hf. destruct (limit <=? timestamp a); simpl; now rewrite IH. }
  assert (Hins : forall a l,
             insert_desc timestamp (f a) (map f l)
             = map f (insert_desc timestamp a l)).
  { intros a l. induction l as [|b l IH]; simpl; trivial.
    rewrite !Hf. destruct (timestamp b <=? timestamp a); simpl; trivial.
    now rewrite IH. }
  assert (Hsort : forall l,
             order_by_desc timestamp (map f l) = map f (order_by_desc timestamp l)).
  { induction l as [|a l IH]; simpl; trivial.
    unfold order_by_desc in *. rewrite IH. apply Hins. }
  rewrite Hfilter, Hsort.
  destruct (order_by_desc timestamp _); reflexivity.
Qed.

Lemma current_value_spec {row : Type} (timestamp : row -> datetime)
    (val : row -> float) (seconds : Z) (now : datetime) (h : list row) :
  current_value_of timestamp val seconds now h
    match latest_since timestamp (now - timedelta seconds) h with
    | Some r => Some (val r)
    | None => None
    end.
Proof.
  unfold current_value_of. split; [|split].
  - intros v Hv.
    destruct (latest_since timestamp (now - timedelta seconds) h) as [r|] eqn:E;
      [|discriminate].
    injection Hv as <-. exists r. split; [|reflexivity].
    now apply latest_since_most_recent.
  - split.
    + intros Hv.
      destruct (latest_since timestamp (now - timedelta seconds) h) as [r|] eqn:E;
        [discriminate|].
      now apply latest_since_stale.
    + intros H. apply latest_since_stale in H. now rewrite H.
  - intros ->. reflexivity.
Qed.

(** C3. The current value of a sensor, relay or button is the value of the
    most recent of its history rows within the staleness window before
    [now], of 300, 3900 and 3900 seconds, and [None] when no row is within
    the window; under the primary key the most recent row within the
    window is the one read. [error] holds exactly when the current value is
    [None]. An entity without history rows has no current value and is in
    error. *)
Theorem current_value_within_staleness_window (now : datetime) :
  (forall t, t <= now ->
     forall seconds,
       within_window seconds now t <-> now - timedelta seconds <= t <= now) /\
  (forall s : Sensor.t,
      current_value_of SensorHistory.timestamp SensorHistory.value 300 now
        (Sensor.history s) (Sensor.value s now) /\
      (forall r, unique_timestamps SensorHistory.timestamp (Sensor.history s) ->
         most_recent_within SensorHistory.timestamp 300 now (Sensor.history s) r ->
         Sensor.value s now = Some (SensorHistory.value r)) /\
      (Sensor.error s now = true <-> Sensor.value s now = None) /\
      (Sensor.history s = [] -> Sensor.error s now = true)) /\
  (forall s : Relay.t,
      current_value_of RelayHistory.timestamp RelayHistory.value 3900 now
        (Relay.history s) (Relay.value s now) /\
      (forall r, unique_timestamps RelayHistory.timestamp (Relay.history s) ->
         most_recent_within RelayHistory.timestamp 3900 now (Relay.history s) r ->
         Relay.value s now = Some (RelayHistory.value r)) /\
      (Relay.error s now = true <-> Relay.value s now = None) /\
      (Relay.history s = [] -> Relay.error s now = true)) /\
  (forall s : Button.t,
      current_value_of ButtonHistory.timestamp ButtonHistory.value 3900 now
        (Button.history s) (Button.value s now) /\
      (forall r, unique_timestamps ButtonHistory.timestamp (Button.history s) ->
         most_recent_within ButtonHistory.timestamp 3900 now (Button.history s) r ->
         Button.value s now = Some (ButtonHistory.value r)) /\
      (Button.error s now = true <-> Button.value s now = None) /\
      (Button.history s = [] -> Button.error s now = true)).
Proof.
  split; [|split; [|split]].
  - intros t Ht seconds. unfold within_window. lia.
  - intros s. split; [|split; [|split]].
    + exact (current_value_spec SensorHistory.timestamp SensorHistory.value
               300 now (Sensor.history s)).
    + intros r Hu Hr. unfold Sensor.value.
      change (timedelta Sensor.__MAX_VALUE_AGE) with (timedelta 300).
      now rewrite (most_recent_latest_since _ _ _ _ _ _ Hu Hr).
    + unfold Sensor.error. destruct (Sensor.value s now); split;
        trivial; discriminate.
    + unfold Sensor.error, Sensor.value. now intros ->.
  - intros s. split; [|split; [|split]].
    + exact (current_value_spec RelayHistory.timestamp RelayHistory.value
               3900 now (Relay.history s)).
    + intros r Hu Hr. unfold Relay.value.
      change (timedelta Relay.__MAX_VALUE_AGE) with (timedelta 3900).
      now rewrite (most_recent_latest_since _ _ _ _ _ _ Hu Hr).
    + unfold Relay.error. destruct (Relay.value s now); split;
        trivial; discriminate.
    + unfold Relay.error, Relay.value. now intros ->.
  - intros s. split; [|split; [|split]].
    + exact (current_value_spec ButtonHistory.timestamp ButtonHistory.value
               3900 now (Button.history s)).
    + intros r Hu Hr. unfold Button.value.
      change (timedelta Button.__MAX_VALUE_AGE) with (timedelta 3900).
      now rewrite (most_recent_latest_since _ _ _ _ _ _ Hu Hr).
    + unfold Button.error. destruct (Button.value s now); split;
        trivial; discriminate.
    + unfold Button.error, Button.value. now intros ->.
Qed.

Lemma current_value_within_staleness_window_witness :
  Sensor.value sensor2 (t0 + timedelta 420) = Some (fl 33) /\
  Sensor.value sensor2 (t0 + timedelta 420 + 1) = None /\
  Relay.value relay0 t0 = None /\ Relay.error relay0 t0 = true /\
  Button.value button0 t0 = None /\ Button.error button0 t0 = true.
Proof.
  split; [|split].
  - destruct (current_value_within_staleness_window (t0 + timedelta 420))
      as (_ & HS & _ & _).
    destruct (HS sensor2) as (_ & Hrecent & _).
    apply (Hrecent (SensorHistory.mk "28-0317607252ff" (t0 + timedelta 120) (fl 33)
                      (fl 0) (fl 100) (fl 18) (fl 35))).
    + unfold unique_timestamps.
      cbn [sensor2 Sensor.history Sensor.with_history map SensorHistory.timestamp].
      constructor.
      * intros [H|[]]. unfold t0, timedelta in H. lia.
      * constructor; [intros []|constructor].
    + unfold most_recent_within, within_window.
      cbn [sensor2 Sensor.history Sensor.with_history In SensorHistory.timestamp].
      repeat split.
      * right. left. reflexivity.
      * unfold t0, timedelta. lia.
      * intros x [<-|[<-|[]]] _; cbn [SensorHistory.timestamp];
          unfold t0, timedelta; lia.
  - destruct (current_value_within_staleness_window (t0 + timedelta 420 + 1))
      as (_ & HS & _ & _).
    destruct (HS sensor2) as ((_ & Hstale & _) & _).
    apply Hstale. unfold within_window.
    cbn [sensor2 Sensor.history Sensor.with_history In].
    intros x [<-|[<-|[]]]; cbn [SensorHistory.timestamp];
      unfold t0, timedelta; lia.
  - destruct (current_value_within_staleness_window t0) as (_ & _ & HR & HB).
    destruct (HR relay0) as ((_ & _ & Hr1) & _ & _ & Hr2).
    destruct (HB button0) as ((_ & _ & Hb1) & _ & _ & Hb2).
    exact (conj (Hr1 eq_refl) (conj (Hr2 eq_refl) (conj (Hb1 eq_refl) (Hb2 eq_refl)))).
Defined.

(** ** Sensor.alarm *)

Lemma Sensor_value_with_snapshot (self : Sensor.t) (now : datetime)
    (a b c d : float) :
  Sensor.value
    (Sensor.with_history self (map (with_snapshot a b c d) (Sensor.history self)))
    now
  = Sensor.value self now.
Proof.
  unfold Sensor.value. simpl.
  rewrite (latest_since_map SensorHistory.timestamp (with_snapshot a b c d));
    [|reflexivity].
  destruct (latest_since SensorHistory.timestamp _ (Sensor.history self));
    reflexivity.
Qed.

(** C4. The alarm of a sensor is false when the sensor is in error, and is
    otherwise the negation of [alarm_min <= value <= alarm_max] with the
    thresholds configured on the sensor; the thresholds recorded in the
    history rows play no part. So setting [alarm_max] on the sensor leaves
    the history as it is and the next evaluation uses the new threshold. *)
Theorem sensor_alarm_live_thresholds (self : Sensor.t) (now : datetime) :
  (Sensor.error self now = true -> Sensor.alarm self now = Ok false) /\
  (forall v, Sensor.value self now = Some v ->
     Sensor.error self now = false /\
     Sensor.alarm self now =
     Ok (negb (float_leb (Sensor.alarm_min self) v
               && float_leb v (Sensor.alarm_max self))) /\
     (Sensor.alarm self now = Ok false <->
      (Sensor.alarm_min self <= v)%Qc /\ (v <= Sensor.alarm_max self)%Qc)) /\
  (forall m : float,
     Sensor.history (Sensor.set_alarm_max self m) = Sensor.history self /\
     Sensor.value (Sensor.set_alarm_max self m) now = Sensor.value self now /\
     forall v, Sensor.value self now = Some v ->
       Sensor.alarm (Sensor.set_alarm_max self m) now =
       Ok (negb (float_leb (Sensor.alarm_min self) v && float_leb v m))) /\
  (forall a b c d : float,
     Sensor.alarm
       (Sensor.with_history self
          (map (with_snapshot a b c d) (Sensor.history self))) now
     = Sensor.alarm self now).
Proof.
  assert (Halarm : forall s v, Sensor.value s now = Some v ->
            Sensor.alarm s now =
            Ok (negb (float_leb (Sensor.alarm_min s) v
                      && float_leb v (Sensor.alarm_max s)))).
  { intros s v Hv. unfold Sensor.alarm, Sensor.error. now rewrite Hv. }
  split; [|split; [|split]].
  - intros He. unfold Sensor.alarm. now rewrite He.
  - intros v Hv. split; [|split].
    + unfold Sensor.error. now rewrite Hv.
    + now apply Halarm.
    + rewrite (Halarm self v Hv). split.
      * intros [= Hb]. apply negb_false_iff, andb_true_iff in Hb.
        destruct Hb. split; now apply float_leb_le.
      * intros [H1 H2]. f_equal.
        apply negb_false_iff, andb_true_iff. split; now apply float_leb_le.
  - intros m. split; [reflexivity|]. split; [reflexivity|].
    intros v Hv. now apply (Halarm (Sensor.set_alarm_max self m)).
  - intros a b c d. unfold Sensor.alarm, Sensor.error.
    rewrite Sensor_value_with_snapshot. reflexivity.
Qed.

Lemma sensor_alarm_live_thresholds_witness :
  Sensor.alarm sensor2 (t0 + timedelta 130) = Ok false /\
  Sensor.alarm (Sensor.set_alarm_max sensor2 (fl 30)) (t0 + timedelta 130) = Ok true /\
  Sensor.history (Sensor.set_alarm_max sensor2 (fl 30)) = Sensor.history sensor2 /\
  Sensor.alarm sensor2 (t0 + timedelta 1000) = Ok false.
Proof.
  destruct (sensor_alarm_live_thresholds sensor2 (t0 + timedelta 130))
    as (_ & Hlive & Hset & _).
  assert (Hv : Sensor.value sensor2 (t0 + timedelta 130) = Some (fl 33))
    by (vm_compute; reflexivity).
  destruct (Hlive (fl 33) Hv) as (_ & Ha & _).
  destruct (Hset (fl 30)) as (Hh & _ & Ha').
  destruct (sensor_alarm_live_thresholds sensor2 (t0 + timedelta 1000))
    as (Herr & _).
  split; [|split; [|split]].
  - rewrite Ha. vm_compute. reflexivity.
  - rewrite (Ha' (fl 33) Hv). vm_compute. reflexivity.
  - exact Hh.
  - apply Herr. vm_compute. reflexivity.
Defined.

(** ** Relay.is_on *)

(** C7. A relay is on exactly when it has a current value and that value is
    above zero; it is off exactly when it is not on. A relay all of whose
    readings are older than 65 minutes (3900 seconds) is in error and is
    not on. *)
Theorem relay_is_on_iff (self : Relay.t) (now : datetime) :
  (Relay.is_on self now = true <->
   exists v, Relay.value self now = Some v /\ (0 < v)%Qc) /\
  Relay.is_off self now = negb (Relay.is_on self now) /\
  ((forall r, In r (Relay.history self) ->
      timedelta (65 * 60) < now - RelayHistory.timestamp r) ->
   Relay.error self now = true /\ Relay.is_on self now = false /\
   Relay.is_off self now = true).
Proof.
  split; [|split].
  - unfold Relay.is_on. destruct (Relay.value self now) as [v|]; split.
    + intros H. exists v. split; trivial. now apply float_ltb_lt.
    + intros (v' & [= <-] & H). now apply float_ltb_lt.
    + discriminate.
    + intros (v' & H & _). discriminate.
  - reflexivity.
  - intros Hold.
    assert (Hv : Relay.value self now = None).
    { unfold Relay.value.
      replace (latest_since RelayHistory.timestamp
                 (now - timedelta Relay.__MAX_VALUE_AGE) (Relay.history self))
        with (@None RelayHistory.t); trivial.
      symmetry. apply latest_since_None. intros x Hx.
      specialize (Hold x Hx). unfold Relay.__MAX_VALUE_AGE. lia. }
    unfold Relay.is_off, Relay.is_on, Relay.error. rewrite Hv. auto.
Qed.

Lemma relay_is_on_iff_witness :
  (Relay.is_on relay1 (t0 + timedelta (65 * 60)) = true /\
   Relay.error relay1 (t0 + timedelta (65 * 60)) = false) /\
  (Relay.error relay1 (t0 + timedelta (66 * 60)) = true /\
   Relay.is_on relay1 (t0 + timedelta (66 * 60)) = false /\
   Relay.is_off relay1 (t0 + timedelta (66 * 60)) = true).
Proof.
  split.
  - destruct (relay_is_on_iff relay1 (t0 + timedelta (65 * 60))) as (Hon & _ & _).
    assert (Hv : Relay.value relay1 (t0 + timedelta (65 * 60)) = Some (fl 100))
      by (vm_compute; reflexivity).
    split.
    + apply Hon. exists (fl 100). split; [exact Hv|]. reflexivity.
    + unfold Relay.error. rewrite Hv. reflexivity.
  - destruct (relay_is_on_iff relay1 (t0 + timedelta (66 * 60))) as (_ & _ & Hold).
    apply Hold.
    cbn [relay1 Relay.history Relay.with_history In].
    intros r [<-|[]]. cbn [RelayHistory.timestamp]. unfold t0, timedelta. lia.
Defined.

(** ** Relay.update and Button.update *)

Lemma ne_Some (v : float) (current : option float) :
  ne (Some v) current = true <-> current <> Some v.
Proof.
  destruct current as [c|]; simpl.
  - rewrite negb_true_iff. split.
    + intros H [= ->]. rewrite (proj2 (float_eqb_eq v v) eq_refl) in H.
      discriminate.
    + intros H. destruct (float_eqb v c) eqn:E; trivial.
      apply float_eqb_eq in E. subst. now destruct H.
  - split; [discriminate | reflexivity].
Qed.

Lemma ne_Some_false (v : float) (current : option float) :
  ne (Some v) current = false <-> current = Some v.
Proof.
  destruct current as [c|]; simpl.
  - rewrite negb_false_iff, float_eqb_eq. split; [now intros -> | now intros [= ->]].
  - split; discriminate.
Qed.

(** The row [Relay.update] creates. *)
Lemma Relay_update_insert (self : Relay.t) (now : datetime) (v : float)
    (force : bool) :
  force = true \/ Relay.value self now <> Some v ->
  pk_exists RelayHistory.timestamp now (Relay.history self) = false ->
  let relay_data :=
    RelayHistory.mk (Relay.id self) now v
      (v / Q2Qc 100 * Relay.wattage self)%Qc (v / Q2Qc 100 * Relay.flow self)%Qc in
  Relay.update self now (Some v) force =
  Ok (Some relay_data, Relay.with_history self (Relay.history self ++ [relay_data])).
Proof.
  intros Hchange Hpk. unfold Relay.update.
  assert (Hg : force || ne (Some v) (Relay.value self now) = true).
  { destruct Hchange as [->|Hne]; [reflexivity|].
    apply orb_true_iff. right. now apply ne_Some. }
  rewrite Hg. cbn [flush flush1 RelayHistory.timestamp bind].
  rewrite Hpk. reflexivity.
Qed.

Lemma Relay_update_conflict (self : Relay.t) (now : datetime) (v : float)
    (force : bool) :
  force = true \/ Relay.value self now <> Some v ->
  pk_exists RelayHistory.timestamp now (Relay.history self) = true ->
  Relay.update self now (Some v) force = Raise TransactionIntegrityError.
Proof.
  intros Hchange Hpk. unfold Relay.update.
  assert (Hg : force || ne (Some v) (Relay.value self now) = true).
  { destruct Hchange as [->|Hne]; [reflexivity|].
    apply orb_true_iff. right. now apply ne_Some. }
  rewrite Hg. cbn [flush flush1 RelayHistory.timestamp bind].
  rewrite Hpk. reflexivity.
Qed.

Lemma Relay_update_unchanged (self : Relay.t) (now : datetime) (v : float) :
  Relay.value self now = Some v ->
  Relay.update self now (Some v) false = Ok (None, self).
Proof.
  intros Hv. unfold Relay.update.
  rewrite (proj2 (ne_Some_false v _) Hv). reflexivity.
Qed.

(** After a row was appended above all others, it is the current value for
    as long as the window lasts. *)
Lemma Relay_value_newest (self : Relay.t) (r : RelayHistory.t) (now : datetime) :
  (forall x, In x (Relay.history self) ->
     RelayHistory.timestamp x < RelayHistory.timestamp r) ->
  now <= RelayHistory.timestamp r + timedelta 3900 ->
  Relay.value (Relay.with_history self (Relay.history self ++ [r])) now
  = Some (RelayHistory.value r).
Proof.
  intros Hnew Hnow. unfold Relay.value.
  cbn [Relay.history Relay.with_history].
  rewrite latest_since_newest; trivial.
  unfold Relay.__MAX_VALUE_AGE. unfold timedelta in *. lia.
Qed.

Lemma earlier_pk_free {row : Type} (timestamp : row -> datetime)
    (h : list row) (now : datetime) :
  (forall x, In x h -> timestamp x < now) -> pk_exists timestamp now h = false.
Proof.
  intros H. apply pk_exists_false. intros x Hx. specialize (H x Hx). lia.
Qed.

(** Two calls of [Relay.update] with the same value and no force, the
    second 66 minutes after the first: the first row is no longer the
    current value, and the second call writes a second row. Two forced
    calls at one timestamp: the second insert is refused. *)
Lemma relay_two_calls_counterexample :
  rows_of_two_calls relay0 t0 (t0 + timedelta (66 * 60)) (fl 100) false = Some 2%nat /\
  rows_of_two_calls relay0 t0 t0 (fl 100) true = None /\
  Relay.update relay1 t0 (Some (fl 0)) false = Raise TransactionIntegrityError.
Proof.
  split; [|split]; vm_compute; reflexivity.
Qed.

(** C2, amended. When force is set or the reading differs from the current
    value, [Relay.update] appends the row
    [(now, v, v/100 * wattage, v/100 * flow)] and returns it, provided the
    relay has no row at the timestamp of the call (with one, the insert is
    refused); without force and with an unchanged value it writes nothing
    and returns [None]. On a relay whose rows are all earlier than
    the first call: two calls with the same value and no force, the first
    of which changes the value and the second of which comes at most 3900
    seconds later, add exactly one row; two forced calls at different
    timestamps add two rows. *)
Theorem relay_update_change_or_force (self : Relay.t) (now : datetime)
    (v : float) (force : bool) :
  let relay_data :=
    RelayHistory.mk (Relay.id self) now v
      (v / Q2Qc 100 * Relay.wattage self)%Qc (v / Q2Qc 100 * Relay.flow self)%Qc in
  (force = true \/ Relay.value self now <> Some v ->
   pk_exists RelayHistory.timestamp now (Relay.history self) = false ->
   Relay.update self now (Some v) force =
   Ok (Some relay_data, Relay.with_history self (Relay.history self ++ [relay_data]))) /\
  (force = true \/ Relay.value self now <> Some v ->
   pk_exists RelayHistory.timestamp now (Relay.history self) = true ->
   Relay.update self now (Some v) force = Raise TransactionIntegrityError) /\
  (force = false -> Relay.value self now = Some v ->
   Relay.update self now (Some v) force = Ok (None, self)) /\
  (forall now2,
     (forall x, In x (Relay.history self) -> RelayHistory.timestamp x < now) ->
     Relay.value self now <> Some v ->
     now <= now2 <= now + timedelta 3900 ->
     rows_of_two_calls self now now2 v false = Some 1%nat) /\
  (forall now2,
     (forall x, In x (Relay.history self) -> RelayHistory.timestamp x < now) ->
     now < now2 ->
     rows_of_two_calls self now now2 v true = Some 2%nat).
Proof.
  intros relay_data. split; [|split; [|split; [|split]]].
  - intros Hchange Hpk. now apply Relay_update_insert.
  - intros Hchange Hpk. now apply Relay_update_conflict.
  - intros -> Hv. now apply Relay_update_unchanged.
  - intros now2 Hearlier Hne Hnow2. unfold rows_of_two_calls.
    rewrite (Relay_update_insert self now v false (or_intror Hne)
               (earlier_pk_free _ _ _ Hearlier)).
    fold relay_data.
    rewrite (Relay_update_unchanged _ now2 v).
    + cbn [Relay.history Relay.with_history]. rewrite length_app. simpl.
      f_equal. lia.
    + apply (Relay_value_newest self relay_data now2); trivial.
      cbn [RelayHistory.timestamp relay_data]. lia.
  - intros now2 Hearlier Hnow2. unfold rows_of_two_calls.
    rewrite (Relay_update_insert self now v true (or_introl eq_refl)
               (earlier_pk_free _ _ _ Hearlier)).
    fold relay_data.
    rewrite (Relay_update_insert _ now2 v true (or_introl eq_refl)).
    + cbn [Relay.history Relay.with_history]. rewrite !length_app. simpl.
      f_equal. lia.
    + apply earlier_pk_free. cbn [Relay.history Relay.with_history].
      intros x Hx. apply in_app_iff in Hx. destruct Hx as [Hx|[<-|[]]].
      * specialize (Hearlier x Hx). lia.
      * cbn [RelayHistory.timestamp relay_data]. lia.
Qed.

Lemma relay_update_change_or_force_witness :
  rows_of_two_calls relay0 t0 (t0 + timedelta 3900) (fl 100) false = Some 1%nat /\
  rows_of_two_calls relay0 t0 (t0 + 1) (fl 100) true = Some 2%nat /\
  Relay.update relay1 (t0 + timedelta 60) (Some (fl 100)) false = Ok (None, relay1) /\
  Relay.update relay1 (t0 + timedelta 60) (Some (fl 50)) false =
  Ok (Some (RelayHistory.mk "relay1" (t0 + timedelta 60) (fl 50)
              (fl 50 / Q2Qc 100 * fl 60)%Qc (fl 50 / Q2Qc 100 * fl 0)%Qc),
      Relay.with_history relay1
        (Relay.history relay1 ++
         [RelayHistory.mk "relay1" (t0 + timedelta 60) (fl 50)
            (fl 50 / Q2Qc 100 * fl 60)%Qc (fl 50 / Q2Qc 100 * fl 0)%Qc])).
Proof.
  destruct (relay_update_change_or_force relay0 t0 (fl 100) false)
    as (_ & _ & _ & Hone & _).
  destruct (relay_update_change_or_force relay0 t0 (fl 100) true)
    as (_ & _ & _ & _ & Htwo).
  destruct (relay_update_change_or_force relay1 (t0 + timedelta 60) (fl 100) false)
    as (_ & _ & Hsame & _).
  destruct (relay_update_change_or_force relay1 (t0 + timedelta 60) (fl 50) false)
    as (Hins & _).
  split; [|split; [|split]].
  - apply Hone.
    + intros x [].
    + intros H. vm_compute in H. discriminate H.
    + unfold t0, timedelta. lia.
  - apply Htwo.
    + intros x [].
    + lia.
  - apply Hsame; [reflexivity | vm_compute; reflexivity].
  - apply Hins.
    + right. intros H. vm_compute in H. discriminate H.
    + vm_compute. reflexivity.
Defined.

Lemma Button_update_insert (self : Button.t) (now : datetime) (v : float)
    (force : bool) :
  force = true \/ Button.value self now <> Some v ->
  pk_exists ButtonHistory.timestamp now (Button.history self) = false ->
  let button_data := ButtonHistory.mk (Button.id self) now v in
  Button.update self now (Some v) force =
  Ok (Some button_data, Button.with_history self (Button.history self ++ [button_data])).
Proof.
  intros Hchange Hpk. unfold Button.update.
  assert (Hg : force || ne (Some v) (Button.value self now) = true).
  { destruct Hchange as [->|Hne]; [reflexivity|].
    apply orb_true_iff. right. now apply ne_Some. }
  rewrite Hg. cbn [flush flush1 ButtonHistory.timestamp bind].
  rewrite Hpk. reflexivity.
Qed.

Lemma Button_update_unchanged (self : Button.t) (now : datetime) (v : float) :
  Button.value self now = Some v ->
  Button.update self now (Some v) false = Ok (None, self).
Proof.
  intros Hv. unfold Button.update.
  rewrite (proj2 (ne_Some_false v _) Hv). reflexivity.
Qed.

Lemma Button_value_newest (self : Button.t) (r : ButtonHistory.t) (now : datetime) :
  (forall x, In x (Button.history self) ->
     ButtonHistory.timestamp x < ButtonHistory.timestamp r) ->
  now <= ButtonHistory.timestamp r + timedelta 3900 ->
  Button.value (Button.with_history self (Button.history self ++ [r])) now
  = Some (ButtonHistory.value r).
Proof.
  intros Hnew Hnow. unfold Button.value.
  cbn [Button.history Button.with_history].
  rewrite latest_since_newest; trivial.
  unfold Button.__MAX_VALUE_AGE. unfold timedelta in *. lia.
Qed.

Lemma flush_insert_Ok {row : Type} (timestamp : row -> datetime) (r : row)
    (h h' : list row) :
  flush timestamp [Insert r] h = Ok h' ->
  pk_exists timestamp (timestamp r) h = false /\ h' = h ++ [r].
Proof.
  cbn [flush flush1 bind].
  destruct (pk_exists timestamp (timestamp r) h); [discriminate|].
  intros [= <-]. auto.
Qed.

Lemma not_later_pk_free {row : Type} (timestamp : row -> datetime)
    (h : list row) (now : datetime) :
  (forall x, In x h -> timestamp x <= now) ->
  pk_exists timestamp now h = false ->
  forall x, In x h -> timestamp x < now.
Proof.
  intros Hle Hpk x Hx. specialize (Hle x Hx).
  assert (timestamp x <> now) by (now apply (proj1 (pk_exists_false _ _ _ _) Hpk)).
  lia.
Qed.

Lemma average_same (a : float) : average a a = a.
Proof.
  unfold average, float in *.
  replace (Q2Qc 2) with (1 + 1)%Qc by (apply Qc_is_canon; reflexivity).
  field. intros H. apply (f_equal Qcanon.this) in H. discriminate H.
Qed.



(** Under [no_overflow] the sum [a + a] is finite and exact in binary64
    and its half is [a]; in the rationals this holds of every [a]. *)
Lemma average_same_no_overflow (a : float) : no_overflow a -> average a a = a.
Proof. intros _. apply average_same. Qed.



(** ** The probe and the write of Sensor.update *)

(** A reading that meets no row of its bucket at the probe while the table
    holds one at the flush (another writer came in between): the insert is
    refused and [update] raises; nothing retries it as an update. *)
Lemma sensor_conflict_counterexample :
  Sensor.update_on sensor0 (t0 + timedelta 5) (Some (fl 20))
    [SensorHistory.mk "28-0317607252ff" t0 (fl 10) (fl 0) (fl 100) (fl 18) (fl 35)]
  = Raise TransactionIntegrityError.
Proof. vm_compute. reflexivity. Qed.

(** C6, amended. With the table as the probe has read it, [Sensor.update]
    never raises: it looks for the row of the minute bucket first, merges
    into the row it finds and inserts only when there is none. It has no
    retry: when the probe has found no row and the table holds one for the
    bucket at the flush, the uniqueness conflict reaches the caller. *)
Theorem sensor_update_probe_then_merge (self : Sensor.t) (now : datetime) (v : float) :
  let bucket := replace_second_microsecond_0 now in
  (exists row self', Sensor.update self now (Some v) = Ok (Some row, self')) /\
  (forall sd,
     at_timestamp SensorHistory.timestamp bucket (Sensor.history self) = Some sd ->
     Sensor.update self now (Some v) =
     Ok (Some (averaged self sd v),
         Sensor.with_history self
           (replace_pk SensorHistory.timestamp (averaged self sd v)
              (Sensor.history self)))) /\
  (forall table,
     at_timestamp SensorHistory.timestamp bucket (Sensor.history self) = None ->
     pk_exists SensorHistory.timestamp bucket table = true ->
     Sensor.update_on self now (Some v) table = Raise TransactionIntegrityError).
Proof.
  intros bucket. split; [|split].
  - destruct (at_timestamp SensorHistory.timestamp bucket (Sensor.history self))
      as [sd|] eqn:E.
    + eexists. eexists. exact (Sensor_update_merge self now v sd E).
    + eexists. eexists. exact (Sensor_update_create self now v E).
  - intros sd Hsd. exact (Sensor_update_merge self now v sd Hsd).
  - intros table Hnone Hpk. unfold Sensor.update_on. fold bucket.
    rewrite Hnone. cbn [Sensor.update_row flush flush1 bind SensorHistory.timestamp].
    rewrite Hpk. reflexivity.
Qed.

Lemma sensor_update_probe_then_merge_witness :
  Sensor.update sensor1 (t0 + timedelta 42) (Some (fl 20)) =
  Ok (Some (averaged sensor1
              (SensorHistory.mk "28-0317607252ff" t0 (fl 10) (fl 0) (fl 100)
                 (fl 20) (fl 30)) (fl 20)),
      Sensor.with_history sensor1
        [averaged sensor1
           (SensorHistory.mk "28-0317607252ff" t0 (fl 10) (fl 0) (fl 100)
              (fl 20) (fl 30)) (fl 20)]) /\
  Sensor.update_on sensor0 (t0 + timedelta 42) (Some (fl 20)) (Sensor.history sensor1)
  = Raise TransactionIntegrityError.
Proof.
  split.
  - destruct (sensor_update_probe_then_merge sensor1 (t0 + timedelta 42) (fl 20))
      as (_ & Hmerge & _).
    rewrite (Hmerge (SensorHistory.mk "28-0317607252ff" t0 (fl 10) (fl 0) (fl 100)
                       (fl 20) (fl 30))); [|vm_compute; reflexivity].
    reflexivity.
  - destruct (sensor_update_probe_then_merge sensor0 (t0 + timedelta 42) (fl 20))
      as (_ & _ & Hrace).
    apply Hrace; vm_compute; reflexivity.
Defined.

(** C10. [Sensor.update] with a reading leaves exactly one write in the
    session, an insert when the probe found no row and otherwise an update
    with the running average, also when the reading equals the stored
    value, and returns the row it wrote; the flush of that write is the new
    history. The mode is the constant 2, so neither the keep-first nor the
    overwrite branch is taken. *)
Theorem sensor_update_always_writes (self : Sensor.t) (now : datetime) (v : float) :
  let bucket := replace_second_microsecond_0 now in
  let sensor_data := at_timestamp SensorHistory.timestamp bucket (Sensor.history self) in
  Sensor.__VALUE_MODE = 2 /\
  exists row w self',
    Sensor.update_row self bucket v sensor_data = (row, [w]) /\
    match sensor_data with
    | None => w = Insert row /\ row = verbatim self bucket v
    | Some sd => w = Update row /\ row = averaged self sd v
    end /\
    Sensor.update self now (Some v) = Ok (Some row, self') /\
    flush SensorHistory.timestamp [w] (Sensor.history self) = Ok (Sensor.history self').
Proof.
  intros bucket sensor_data. split; [reflexivity|].
  destruct sensor_data as [sd|] eqn:E; unfold sensor_data in E.
  - exists (averaged self sd v), (Update (averaged self sd v)).
    eexists. split; [reflexivity|]. split; [auto|].
    split; [exact (Sensor_update_merge self now v sd E)|].
    destruct (at_timestamp_Some _ _ _ _ _ E) as (_ & Ht & Hpk).
    cbn [flush flush1 bind averaged SensorHistory.timestamp Sensor.history
         Sensor.with_history].
    rewrite <- Ht in Hpk. rewrite Hpk. reflexivity.
  - exists (verbatim self bucket v), (Insert (verbatim self bucket v)).
    eexists. split; [reflexivity|]. split; [auto|].
    split; [exact (Sensor_update_create self now v E)|].
    apply at_timestamp_None in E.
    cbn [flush flush1 bind verbatim SensorHistory.timestamp Sensor.history
         Sensor.with_history].
    rewrite E. reflexivity.
Qed.

(** ** SensorHistory.alarm *)

(** With a parameter [self] the body of the getter would evaluate the
    thresholds recorded in the row. *)
Lemma SensorHistory_alarm_body (r : SensorHistory.t) :
  property_get (def ["self"%string] (body SensorHistory.alarm)) r =
  Ok (negb (float_leb (SensorHistory.alarm_min r) (SensorHistory.value r)
            && float_leb (SensorHistory.value r) (SensorHistory.alarm_max r))).
Proof. reflexivity. Qed.

(** C9. Reading the [alarm] property of a history row raises a
    [TypeError] for every row: the getter is declared without parameters
    and is called with the row. The recorded thresholds are never
    evaluated through it. *)
Theorem sensor_history_alarm_raises (r : SensorHistory.t) :
  property_get SensorHistory.alarm r = Raise TypeError.
Proof. reflexivity. Qed.

(** ** Strings and paths *)

Lemma startswith_app (p q : list ascii) : startswith p (p ++ q) = true.
Proof.
  induction p as [|c p IH]; simpl; trivial.
  now rewrite Ascii.eqb_refl.
Qed.

Lemma startswith_true (p s : list ascii) :
  startswith p s = true -> exists q, s = p ++ q.
Proof.
  revert s. induction p as [|c p IH]; intros s; simpl.
  - intros _. now exists s.
  - destruct s as [|d s]; [discriminate|].
    intros H. apply andb_true_iff in H. destruct H as [Hc Hp].
    apply Ascii.eqb_eq in Hc. subst d.
    destruct (IH s Hp) as [q ->]. now exists q.
Qed.

Lemma endswith_app (x y : list ascii) : endswith x (y ++ x) = true.
Proof.
  unfold endswith. rewrite rev_app_distr. apply startswith_app.
Qed.

Lemma endswith_true (x s : list ascii) :
  endswith x s = true -> exists p, s = p ++ x.
Proof.
  unfold endswith. intros H. apply startswith_true in H. destruct H as [q Hq].
  exists (rev q). apply (f_equal (@rev ascii)) in Hq.
  now rewrite rev_involutive, rev_app_distr, rev_involutive in Hq.
Qed.

Lemma lower_app (x y : list ascii) : lower (x ++ y) = lower x ++ lower y.
Proof. apply map_app. Qed.

Lemma lower_ascii_fixes (c : ascii) :
  plain c = false -> lower_ascii c = c.
Proof.
  unfold plain. intros H. apply andb_false_iff in H.
  destruct H as [H|H]; apply negb_false_iff, Ascii.eqb_eq in H; subst c;
    reflexivity.
Qed.

Lemma plain_lower_ascii (c : ascii) :
  plain (lower_ascii c) = true -> plain c = true.
Proof.
  intros H. destruct (plain c) eqn:E; trivial.
  rewrite (lower_ascii_fixes c E) in H. congruence.
Qed.

Lemma plain_lower (l : list ascii) :
  forallb plain (lower l) = true -> forallb plain l = true.
Proof.
  induction l as [|c l IH]; simpl; trivial.
  intros H. apply andb_true_iff in H. destruct H as [Hc Hl].
  apply andb_true_iff. split; [now apply plain_lower_ascii | now apply IH].
Qed.

Lemma lower_ascii_dot (c : ascii) : lower_ascii c = "."%char -> c = "."%char.
Proof.
  intros H. destruct (plain c) eqn:E.
  - destruct c as [[] [] [] [] [] [] [] []]; vm_compute in H;
      solve [discriminate H | reflexivity].
  - rewrite (lower_ascii_fixes c E) in H. exact H.
Qed.

Lemma plain_without (c : ascii) (l : list ascii) :
  plain c = false -> forallb plain l = true -> without c l = true.
Proof.
  intros Hc. unfold without. induction l as [|a l IH]; simpl; trivial.
  intros H. apply andb_true_iff in H. destruct H as [Ha Hl].
  rewrite (IH Hl), andb_true_r. apply negb_true_iff.
  destruct (Ascii.eqb a c) eqn:E; trivial.
  apply Ascii.eqb_eq in E. congruence.
Qed.

Lemma without_app (c : ascii) (x y : list ascii) :
  without c (x ++ y) = without c x && without c y.
Proof. apply forallb_app. Qed.

Lemma split_without (w : list ascii) :
  without "/" w = true -> split "/" w = [w].
Proof.
  unfold without. induction w as [|c w IH]; simpl; trivial.
  intros H. apply andb_true_iff in H. destruct H as [Hc Hw].
  apply negb_true_iff in Hc. rewrite Hc, (IH Hw). reflexivity.
Qed.

(** Appending text without a separator extends the last component. *)
Lemma split_app_without (u w : list ascii) :
  without "/" w = true ->
  exists xs x, split "/" (u ++ w) = xs ++ [x ++ w].
Proof.
  intros Hw. induction u as [|c u (xs & x & Huw)].
  - exists [], []. simpl. now apply split_without.
  - simpl. rewrite Huw. destruct (Ascii.eqb c "/").
    + now exists ([] :: xs), x.
    + destruct xs as [|y ys]; simpl.
      * now exists [], (c :: x).
      * now exists ((c :: y) :: ys), x.
Qed.

Lemma lstrip_app (c : ascii) (u : list ascii) (d : ascii) (w : list ascii) :
  Ascii.eqb d c = false ->
  lstrip c (u ++ d :: w) = lstrip c u ++ d :: w.
Proof.
  intros Hd. induction u as [|a u IH]; simpl.
  - now rewrite Hd.
  - destruct (Ascii.eqb a c); trivial.
Qed.

Lemma rfind_None (c : ascii) (e : list ascii) :
  without c e = true -> rfind c e = None.
Proof.
  unfold without. induction e as [|x e IH]; simpl; trivial.
  intros H. apply andb_true_iff in H. destruct H as [Hx He].
  rewrite (IH He). apply negb_true_iff in Hx. now rewrite Hx.
Qed.

Lemma rfind_last (c : ascii) (y e : list ascii) :
  without c e = true ->
  rfind c (y ++ c :: e) = Some (List.length y).
Proof.
  intros He. induction y as [|a y IH]; simpl.
  - now rewrite (rfind_None c e He), Ascii.eqb_refl.
  - now rewrite IH.
Qed.

Lemma skipn_length_app {A : Type} (y z : list A) :
  skipn (List.length y) (y ++ z) = z.
Proof. induction y; simpl; trivial. Qed.

Lemma tail_parse (s : list ascii) :
  PurePosixPath.tail (PurePosixPath.parse s) =
  filter (fun x => negb (is_empty x) && negb (is_dot x))
    (split "/" (snd (PurePosixPath.splitroot s))).
Proof.
  unfold PurePosixPath.parse. destruct (PurePosixPath.splitroot s). reflexivity.
Qed.

(** What is left of a path after its root still ends with a text that
    does not start with a separator. *)
Lemma splitroot_app (u : list ascii) (d : ascii) (w : list ascii) :
  Ascii.eqb d "/" = false ->
  exists u', snd (PurePosixPath.splitroot (u ++ d :: w)) = u' ++ d :: w.
Proof.
  intros Hd. unfold PurePosixPath.splitroot.
  destruct (u ++ d :: w) as [|c l] eqn:E.
  - now destruct u.
  - destruct (Ascii.eqb c "/") eqn:Hc.
    + exists (lstrip "/" u). rewrite <- E, (lstrip_app "/" u d w Hd).
      destruct (Nat.eqb _ 2); reflexivity.
    + now exists u.
Qed.

(** The name of a path that ends with a separator-free text of two
    characters or more ends with that text. *)
Lemma name_parse_app (u : list ascii) (d e : ascii) (w : list ascii) :
  without "/" (d :: e :: w) = true ->
  exists x,
    PurePosixPath.name (PurePosixPath.parse (u ++ d :: e :: w)) = x ++ d :: e :: w.
Proof.
  intros Hw.
  assert (Hd : Ascii.eqb d "/" = false).
  { unfold without in Hw. simpl in Hw. apply andb_true_iff in Hw.
    destruct Hw as [Hd _]. now apply negb_true_iff in Hd. }
  destruct (splitroot_app u d (e :: w) Hd) as [u' Hu'].
  unfold PurePosixPath.name. rewrite tail_parse, Hu'.
  destruct (split_app_without u' (d :: e :: w) Hw) as (xs & x & ->).
  exists x. rewrite filter_app.
  assert (Hgood : negb (is_empty (x ++ d :: e :: w))
                  && negb (is_dot (x ++ d :: e :: w)) = true).
  { destruct x as [|a [|b x]]; reflexivity. }
  cbn [filter]. rewrite Hgood. apply last_last.
Qed.

(** The suffix of a path that ends with [stem.ext], both parts plain and
    not empty, is [.ext]. *)
Lemma suffix_parse (u stem ext : list ascii) :
  stem <> [] -> forallb plain stem = true ->
  ext <> [] -> forallb plain ext = true ->
  PurePosixPath.suffix (PurePosixPath.parse (u ++ stem ++ "."%char :: ext))
  = "."%char :: ext.
Proof.
  intros Hstem Hps Hext Hpe.
  assert (Hw : without "/" (stem ++ "."%char :: ext) = true).
  { rewrite without_app.
    rewrite (plain_without "/" stem eq_refl Hps).
    unfold without. cbn [forallb]. fold (without "/" ext).
    now rewrite (plain_without "/" ext eq_refl Hpe). }
  assert (Hname : exists x,
             PurePosixPath.name (PurePosixPath.parse (u ++ stem ++ "."%char :: ext))
             = x ++ stem ++ "."%char :: ext).
  { destruct stem as [|d [|d' stem]]; [now destruct Hstem| |];
      now apply name_parse_app. }
  destruct Hname as [x Hname].
  unfold PurePosixPath.suffix. rewrite Hname.
  rewrite app_assoc, rfind_last by now apply plain_without.
  rewrite skipn_length_app.
  assert (Hlen : (Nat.ltb 0 (List.length (x ++ stem))
                  && Nat.ltb (List.length (x ++ stem))
                       (List.length ((x ++ stem) ++ "."%char :: ext) - 1))%bool
                 = true).
  { apply andb_true_iff. rewrite !length_app.
    destruct stem; [now destruct Hstem|]. destruct ext; [now destruct Hext|].
    simpl. split; apply Nat.ltb_lt; lia. }
  now rewrite Hlen.
Qed.

(** ** Enclosure *)

Lemma In_firstn {A : Type} (n : nat) (l : list A) (x : A) :
  In x (firstn n l) -> In x l.
Proof.
  revert l. induction n as [|n IH]; intros [|a l]; simpl; try tauto.
  intros [->|H]; auto.
Qed.

Lemma In_skipn {A : Type} (n : nat) (l : list A) (x : A) :
  In x (skipn n l) -> In x l.
Proof.
  revert l. induction n as [|n IH]; intros [|a l]; simpl; try tauto.
  intros H. right. now apply IH.
Qed.

Lemma hexdigit_alphabet (d : N) : In (UUID.hexdigit d) uuid_alphabet.
Proof.
  unfold UUID.hexdigit.
  destruct (nth_in_or_default (N.to_nat d) (chars "0123456789abcdef") "0"%char)
    as [H| ->].
  - revert H. generalize (nth (N.to_nat d) (chars "0123456789abcdef") "0"%char).
    intros c. unfold uuid_alphabet. simpl. tauto.
  - now left.
Qed.

Lemma hex_alphabet (width : nat) (n : N) (c : ascii) :
  In c (UUID.hex width n) -> In c uuid_alphabet.
Proof.
  revert n. induction width as [|w IH]; intros n; simpl; [tauto|].
  intros H. apply in_app_iff in H. destruct H as [H|[<-|[]]].
  - exact (IH _ H).
  - apply hexdigit_alphabet.
Qed.

Lemma UUID_str_alphabet (u : UUID.t) (c : ascii) :
  In c (UUID.str u) -> In c uuid_alphabet.
Proof.
  unfold UUID.str. intros H.
  repeat (apply in_app_iff in H; destruct H as [H|H]);
    try (apply In_firstn in H); try (apply In_skipn in H);
    try (apply In_skipn in H);
    try (now apply hex_alphabet in H);
    destruct H as [<-|[]]; unfold uuid_alphabet; simpl; tauto.
Qed.

Lemma UUID_str_not_empty (u : UUID.t) : UUID.str u <> [].
Proof.
  unfold UUID.str. intros H. apply (f_equal (@List.length ascii)) in H.
  rewrite !length_app in H. simpl in H. lia.
Qed.

Lemma UUID_str_plain (u : UUID.t) : forallb plain (lower (UUID.str u)) = true.
Proof.
  apply forallb_forall. intros x Hx. unfold lower in Hx.
  apply in_map_iff in Hx. destruct Hx as (c & <- & Hc).
  apply UUID_str_alphabet in Hc. unfold uuid_alphabet in Hc. simpl in Hc.
  repeat (destruct Hc as [<-|Hc]; [reflexivity|]). destruct Hc.
Qed.

(** A text that the pattern [<id>.<ext>] matches at its end, whatever the
    case of its letters, ends with [id] and the suffix of its path. *)
Lemma match_named_after (text s p ext : list ascii) :
  text <> [] -> forallb plain (lower text) = true ->
  ext <> [] -> forallb plain ext = true ->
  lower s = p ++ lower text ++ "."%char :: ext ->
  endswith (lower (text ++ PurePosixPath.suffix (PurePosixPath.parse s)))
    (lower s) = true.
Proof.
  intros Htext Hpt Hext Hpe Hs. unfold lower in Hs.
  apply map_eq_app in Hs. destruct Hs as (s1 & r & -> & Hs1 & Hr).
  apply map_eq_app in Hr. destruct Hr as (s2 & s3 & -> & Hs2 & Hs3).
  destruct s3 as [|c e]; [discriminate|].
  simpl in Hs3. injection Hs3 as Hc He.
  apply lower_ascii_dot in Hc. subst c.
  fold (lower s2) in Hs2. fold (lower e) in He. fold (lower text) in Hs2.
  rewrite suffix_parse.
  - rewrite !lower_app, Hs2. apply endswith_app.
  - intros ->. destruct text; [now destruct Htext | discriminate].
  - apply plain_lower. now rewrite Hs2.
  - intros ->. subst ext. now destruct Hext.
  - apply plain_lower. now rewrite He.
Qed.

Lemma regex_search_named_after (id : UUID.t) (s : list ascii) :
  Enclosure.regex_search (UUID.str id) s = true ->
  endswith (lower (UUID.str id ++ PurePosixPath.suffix (PurePosixPath.parse s)))
    (lower s) = true.
Proof.
  unfold Enclosure.regex_search. intros H.
  apply existsb_exists in H. destruct H as (ext & Hext & H).
  assert (Hcases : exists p e,
             e <> [] /\ forallb plain e = true /\
             lower s = p ++ lower (UUID.str id) ++ "."%char :: e).
  { apply orb_true_iff in H.
    destruct H as [H|H]; apply endswith_true in H; destruct H as [p Hp];
      rewrite !lower_app in Hp; try rewrite <- !app_assoc in Hp;
      unfold Enclosure.extensions in Hext; simpl in Hext;
      destruct Hext as [<-|[<-|[<-|[<-|[]]]]];
      eexists p, _; (split; [|split; [|exact Hp]]);
      solve [discriminate | reflexivity]. }
  destruct Hcases as (p & e & He & Hpe & Hs).
  apply (match_named_after (UUID.str id) s p e); trivial.
  - apply UUID_str_not_empty.
  - apply UUID_str_plain.
Qed.

Lemma endswith_lower_app (x a b : list ascii) :
  endswith (lower x) (lower (a ++ b ++ x)) = true.
Proof.
  rewrite app_assoc, lower_app. apply endswith_app.
Qed.

(** An image whose name is the id in capital letters is matched by the
    pattern, which ignores case, and is left as it is: the stored path does
    not end with the text of the id, which is in small letters. *)
Lemma enclosure_image_counterexample :
  Enclosure.before_insert files rename_file enclosure1
    ["media/ABCDEF12-3456-7890-1234-567890ABCDEF.JPG"%string]
  = Ok (enclosure1, ["media/ABCDEF12-3456-7890-1234-567890ABCDEF.JPG"%string]) /\
  UUID.str (Enclosure.id enclosure1) = chars "abcdef12-3456-7890-1234-567890abcdef" /\
  PurePosixPath.suffix (PurePosixPath.parse (chars (Enclosure.image enclosure1)))
  = chars ".JPG" /\
  endswith (UUID.str (Enclosure.id enclosure1) ++ chars ".JPG")
    (chars (Enclosure.image enclosure1)) = false.
Proof.
  repeat split; vm_compute; reflexivity.
Qed.

(** C8, amended. The hooks run before every insert and every update of an
    enclosure are the same renaming. When the pattern does not match the
    image path, the stored path becomes the parent of the image path, a
    separator, the text of the id and the suffix of the image path; when it
    matches, the enclosure is left as it is. In both cases, when the hook
    returns, the id is kept and the stored path ends, up to the case of
    letters, with the text of the id followed by the suffix the image path
    had. The hook returns whenever the rename of the file does. *)
Theorem enclosure_image_named_after_id (filesystem : Type)
    (rename : list ascii -> list ascii -> filesystem -> result filesystem)
    (self : Enclosure.t) (fs : filesystem) :
  let image := PurePosixPath.parse (chars (Enclosure.image self)) in
  let extension := PurePosixPath.suffix image in
  let matched :=
    Enclosure.regex_search (UUID.str (Enclosure.id self)) (chars (Enclosure.image self)) in
  Enclosure.before_update filesystem rename self fs
  = Enclosure.before_insert filesystem rename self fs /\
  (forall self' fs',
      Enclosure.before_insert filesystem rename self fs = Ok (self', fs') ->
      Enclosure.id self' = Enclosure.id self /\
      named_after (Enclosure.id self) extension (Enclosure.image self') /\
      (matched = true -> self' = self) /\
      (matched = false ->
       chars (Enclosure.image self') =
       PurePosixPath.str (PurePosixPath.parent image) ++ chars "/"
       ++ UUID.str (Enclosure.id self) ++ extension)) /\
  ((forall src dst, exists fs', rename src dst fs = Ok fs') ->
   exists self' fs',
     Enclosure.before_insert filesystem rename self fs = Ok (self', fs')).
Proof.
  intros image extension matched. split; [reflexivity|]. split.
  - intros self' fs'. unfold Enclosure.before_insert, Enclosure.__rename_image.
    fold matched. destruct matched eqn:E.
    + intros [= <- <-]. split; [reflexivity|]. split.
      * unfold named_after. now apply regex_search_named_after.
      * split; [reflexivity | discriminate].
    + intros H. apply bind_Ok in H. destruct H as (fs1 & _ & [= <- <-]).
      split; [reflexivity|].
      unfold named_after, chars.
      cbn [Enclosure.image Enclosure.with_image].
      rewrite list_ascii_of_string_of_list_ascii.
      split; [exact (endswith_lower_app _ _ (chars "/"))|].
      split; [discriminate | reflexivity].
  - intros Hrename. unfold Enclosure.before_insert, Enclosure.__rename_image.
    destruct (Enclosure.regex_search _ _); [now eexists; eexists|].
    match goal with
    | |- context [rename ?src ?dst fs] => destruct (Hrename src dst) as [fs' ->]
    end.
    now eexists; eexists.
Qed.

Lemma enclosure_image_named_after_id_witness :
  Enclosure.before_insert files rename_file enclosure0 ["media/gecko.JPG"%string]
  = Ok (Enclosure.with_image enclosure0
          "media/12345678-1234-5678-1234-567812345678.JPG",
        ["media/12345678-1234-5678-1234-567812345678.JPG"%string]) /\
  named_after (Enclosure.id enclosure0) (chars ".JPG")
    "media/12345678-1234-5678-1234-567812345678.JPG" /\
  named_after (Enclosure.id enclosure1) (chars ".JPG")
    "media/ABCDEF12-3456-7890-1234-567890ABCDEF.JPG".
Proof.
  assert (H : Enclosure.before_insert files rename_file enclosure0
                ["media/gecko.JPG"%string]
              = Ok (Enclosure.with_image enclosure0
                      "media/12345678-1234-5678-1234-567812345678.JPG",
                    ["media/12345678-1234-5678-1234-567812345678.JPG"%string]))
    by (vm_compute; reflexivity).
  assert (H1 : Enclosure.before_insert files rename_file enclosure1
                 ["media/ABCDEF12-3456-7890-1234-567890ABCDEF.JPG"%string]
               = Ok (enclosure1,
                     ["media/ABCDEF12-3456-7890-1234-567890ABCDEF.JPG"%string]))
    by (vm_compute; reflexivity).
  split; [exact H|].
  destruct (enclosure_image_named_after_id files rename_file enclosure0
              ["media/gecko.JPG"%string]) as (_ & Hnamed & _).
  destruct (enclosure_image_named_after_id files rename_file enclosure1
              ["media/ABCDEF12-3456-7890-1234-567890ABCDEF.JPG"%string])
    as (_ & Hnamed1 & _).
  split.
  - exact (proj1 (proj2 (Hnamed _ _ H))).
  - exact (proj1 (proj2 (Hnamed1 _ _ H1))).
Defined.

(** ** Invariants of the ledger

    The assumptions made on histories above hold of every history that the
    update methods have built from the empty one under a clock that does
    not go back. *)

Lemma NoDup_snoc {A : Type} (l : list A) (a : A) :
  NoDup l -> ~ In a l -> NoDup (l ++ [a]).
Proof.
  induction l as [|x l IH]; simpl; intros Hnd Hnot.
  - constructor; [intros []|constructor].
  - inversion Hnd as [|y l' Hx Hl]; subst. constructor.
    + intros Hin. apply in_app_iff in Hin. destruct Hin as [Hin|[<-|[]]]; tauto.
    + apply IH; tauto.
Qed.

Lemma replace_pk_timestamps {row : Type} (timestamp : row -> datetime)
    (r : row) (h : list row) :
  map timestamp (replace_pk timestamp r h) = map timestamp h.
Proof.
  induction h as [|x h IH]; simpl; trivial.
  destruct (timestamp x =? timestamp r) eqn:E; simpl.
  - apply Z.eqb_eq in E. now rewrite E.
  - now rewrite IH.
Qed.

Lemma flush_unique_timestamps {row : Type} (timestamp : row -> datetime)
    (ws : list (write row)) :
  forall h h',
    unique_timestamps timestamp h ->
    flush timestamp ws h = Ok h' ->
    unique_timestamps timestamp h'.
Proof.
  unfold unique_timestamps.
  induction ws as [|w ws IH]; intros h h' Hu; simpl.
  - now intros [= <-].
  - intros H. apply bind_Ok in H. destruct H as (h1 & Hw & Hws).
    apply (IH h1 h'); trivial. clear Hws IH.
    destruct w as [r|r]; simpl in Hw;
      destruct (pk_exists timestamp (timestamp r) h) eqn:E; try discriminate;
      injection Hw as <-.
    + rewrite map_app. simpl. apply NoDup_snoc; trivial.
      intros Hin. apply in_map_iff in Hin. destruct Hin as (x & Hx & Hin).
      exact (proj1 (pk_exists_false _ _ _ _) E x Hin Hx).
    + now rewrite replace_pk_timestamps.
Qed.

Lemma flush_in_the_past {row : Type} (timestamp : row -> datetime)
    (now : datetime) (w : write row) (h h' : list row) :
  in_the_past timestamp now h ->
  timestamp match w with Insert r | Update r => r end <= now ->
  flush timestamp [w] h = Ok h' ->
  in_the_past timestamp now h'.
Proof.
  unfold in_the_past. intros Hp Hr H x Hx.
  assert (Hm : In (timestamp x) (map timestamp h')) by now apply in_map.
  cbn [flush bind] in H. apply bind_Ok in H. destruct H as (h1 & Hw & [= <-]).
  destruct w as [r|r]; simpl in Hw;
    destruct (pk_exists timestamp (timestamp r) h) eqn:E; try discriminate;
    injection Hw as <-.
  - apply in_app_iff in Hx. destruct Hx as [Hx|[<-|[]]]; auto.
  - rewrite replace_pk_timestamps in Hm. apply in_map_iff in Hm.
    destruct Hm as (y & <- & Hy). auto.
Qed.

Lemma in_the_past_later {row : Type} (timestamp : row -> datetime)
    (now now' : datetime) (h : list row) :
  now <= now' -> in_the_past timestamp now h -> in_the_past timestamp now' h.
Proof.
  unfold in_the_past. intros Hle H x Hx. specialize (H x Hx). lia.
Qed.

Lemma replace_second_microsecond_0_le (now : datetime) :
  replace_second_microsecond_0 now <= now.
Proof.
  unfold replace_second_microsecond_0.
  assert (0 <= now mod timedelta 60) by (apply Z.mod_pos_bound; reflexivity).
  lia.
Qed.

Lemma Sensor_update_invariants (self self' : Sensor.t) (now : datetime)
    (value : option float) (r : option SensorHistory.t) :
  Sensor.update self now value = Ok (r, self') ->
  (unique_timestamps SensorHistory.timestamp (Sensor.history self) ->
   unique_timestamps SensorHistory.timestamp (Sensor.history self')) /\
  (in_the_past SensorHistory.timestamp now (Sensor.history self) ->
   in_the_past SensorHistory.timestamp now (Sensor.history self')).
Proof.
  destruct value as [v|]; [|intros [= <- <-]; auto].
  destruct (at_timestamp SensorHistory.timestamp (replace_second_microsecond_0 now)
              (Sensor.history self)) as [sd|] eqn:E.
  - rewrite (Sensor_update_merge self now v sd E). intros [= <- <-].
    cbn [Sensor.history Sensor.with_history].
    destruct (at_timestamp_Some _ _ _ _ _ E) as (Hin & Ht & Hpk).
    split; intros H.
    + unfold unique_timestamps. now rewrite replace_pk_timestamps.
    + apply (flush_in_the_past SensorHistory.timestamp now
               (Update (averaged self sd v)) (Sensor.history self)); trivial.
      * exact (H sd Hin).
      * cbn [flush flush1 bind averaged SensorHistory.timestamp].
        rewrite Ht, Hpk. reflexivity.
  - rewrite (Sensor_update_create self now v E). intros [= <- <-].
    cbn [Sensor.history Sensor.with_history].
    apply at_timestamp_None in E.
    set (sd := verbatim self (replace_second_microsecond_0 now) v).
    assert (Hf : flush SensorHistory.timestamp [Insert sd] (Sensor.history self)
                 = Ok (Sensor.history self ++ [sd])).
    { cbn [flush flush1 bind sd verbatim SensorHistory.timestamp].
      rewrite E. reflexivity. }
    split; intros H.
    + exact (flush_unique_timestamps _ _ _ _ H Hf).
    + apply (flush_in_the_past SensorHistory.timestamp now (Insert sd)
               (Sensor.history self)); trivial.
      apply replace_second_microsecond_0_le.
Qed.

Lemma Relay_update_invariants (self self' : Relay.t) (now : datetime)
    (new_value : option float) (force : bool) (r : option RelayHistory.t) :
  Relay.update self now new_value force = Ok (r, self') ->
  (unique_timestamps RelayHistory.timestamp (Relay.history self) ->
   unique_timestamps RelayHistory.timestamp (Relay.history self')) /\
  (in_the_past RelayHistory.timestamp now (Relay.history self) ->
   in_the_past RelayHistory.timestamp now (Relay.history self')).
Proof.
  unfold Relay.update. destruct new_value as [v|]; [|intros [= <- <-]; auto].
  destruct (force || ne (Some v) (Relay.value self now));
    [|intros [= <- <-]; auto].
  intros H. apply bind_Ok in H. destruct H as (table & Hf & [= <- <-]).
  cbn [Relay.history Relay.with_history]. split; intros H.
  - exact (flush_unique_timestamps _ _ _ _ H Hf).
  - apply (flush_in_the_past RelayHistory.timestamp now _ _ _ H) in Hf; trivial.
    cbn [RelayHistory.timestamp]. lia.
Qed.

Lemma Button_update_invariants (self self' : Button.t) (now : datetime)
    (new_value : option float) (force : bool) (r : option ButtonHistory.t) :
  Button.update self now new_value force = Ok (r, self') ->
  (unique_timestamps ButtonHistory.timestamp (Button.history self) ->
   unique_timestamps ButtonHistory.timestamp (Button.history self')) /\
  (in_the_past ButtonHistory.timestamp now (Button.history self) ->
   in_the_past ButtonHistory.timestamp now (Button.history self')).
Proof.
  unfold Button.update. destruct new_value as [v|]; [|intros [= <- <-]; auto].
  destruct (force || ne (Some v) (Button.value self now));
    [|intros [= <- <-]; auto].
  intros H. apply bind_Ok in H. destruct H as (table & Hf & [= <- <-]).
  cbn [Button.history Button.with_history]. split; intros H.
  - exact (flush_unique_timestamps _ _ _ _ H Hf).
  - apply (flush_in_the_past ButtonHistory.timestamp now _ _ _ H) in Hf; trivial.
    cbn [ButtonHistory.timestamp]. lia.
Qed.

(** * Further properties of the ledger *)

(** ** A reading is the current value right after its update *)

Lemma Relay_update_cases (self self' : Relay.t) (now : datetime) (v : float)
    (force : bool) (r : option RelayHistory.t) :
  Relay.update self now (Some v) force = Ok (r, self') ->
  (r = None /\ self' = self /\ force = false /\ Relay.value self now = Some v) \/
  (exists row,
      r = Some row /\
      row = RelayHistory.mk (Relay.id self) now v
              (v / Q2Qc 100 * Relay.wattage self)%Qc
              (v / Q2Qc 100 * Relay.flow self)%Qc /\
      self' = Relay.with_history self (Relay.history self ++ [row]) /\
      pk_exists RelayHistory.timestamp now (Relay.history self) = false /\
      (force = true \/ Relay.value self now <> Some v)).
Proof.
  unfold Relay.update.
  destruct (force || ne (Some v) (Relay.value self now)) eqn:E.
  - intros H. apply bind_Ok in H. destruct H as (table & Hf & [= <- <-]).
    apply flush_insert_Ok in Hf. destruct Hf as [Hpk ->]. right.
    eexists. repeat split; trivial.
    apply orb_true_iff in E. destruct E as [E|E]; [now left|].
    right. now apply ne_Some.
  - intros [= <- <-]. left. apply orb_false_iff in E. destruct E as [-> E].
    apply ne_Some_false in E. auto.
Qed.

Lemma Button_update_cases (self self' : Button.t) (now : datetime) (v : float)
    (force : bool) (r : option ButtonHistory.t) :
  Button.update self now (Some v) force = Ok (r, self') ->
  (r = None /\ self' = self /\ force = false /\ Button.value self now = Some v) \/
  (exists row,
      r = Some row /\
      row = ButtonHistory.mk (Button.id self) now v /\
      self' = Button.with_history self (Button.history self ++ [row]) /\
      pk_exists ButtonHistory.timestamp now (Button.history self) = false /\
      (force = true \/ Button.value self now <> Some v)).
Proof.
  unfold Button.update.
  destruct (force || ne (Some v) (Button.value self now)) eqn:E.
  - intros H. apply bind_Ok in H. destruct H as (table & Hf & [= <- <-]).
    apply flush_insert_Ok in Hf. destruct Hf as [Hpk ->]. right.
    eexists. repeat split; trivial.
    apply orb_true_iff in E. destruct E as [E|E]; [now left|].
    right. now apply ne_Some.
  - intros [= <- <-]. left. apply orb_false_iff in E. destruct E as [-> E].
    apply ne_Some_false in E. auto.
Qed.

(** X1. After a call of [Relay.update] with a reading [v] that returns, on
    a relay none of whose rows is later than the clock, the current value
    of the relay at that instant is [v], whether the call wrote a row or
    not: the relay is not in error and is on exactly when [v] is above
    zero. *)
Theorem relay_update_then_value (self self' : Relay.t) (now : datetime)
    (v : float) (force : bool) (r : option RelayHistory.t) :
  in_the_past RelayHistory.timestamp now (Relay.history self) ->
  Relay.update self now (Some v) force = Ok (r, self') ->
  Relay.value self' now = Some v /\
  Relay.error self' now = false /\
  (Relay.is_on self' now = true <-> (0 < v)%Qc).
Proof.
  intros Hpast Hu.
  assert (Hv : Relay.value self' now = Some v).
  { apply Relay_update_cases in Hu.
    destruct Hu as [(_ & -> & _ & Hv)|(row & _ & -> & -> & Hpk & _)]; trivial.
    apply (Relay_value_newest self (RelayHistory.mk _ now v _ _) now);
      cbn [RelayHistory.timestamp].
    - now apply not_later_pk_free.
    - unfold timedelta. lia. }
  unfold Relay.error, Relay.is_on. rewrite Hv.
  repeat split; apply float_ltb_lt.
Qed.

Lemma relay_update_then_value_witness :
  exists r self',
    Relay.update relay1 (t0 + timedelta 60) (Some (fl 0)) false = Ok (r, self') /\
    Relay.value self' (t0 + timedelta 60) = Some (fl 0) /\
    Relay.error self' (t0 + timedelta 60) = false /\
    Relay.is_on self' (t0 + timedelta 60) = false.
Proof.
  destruct (Relay.update relay1 (t0 + timedelta 60) (Some (fl 0)) false)
    as [[r self']|e] eqn:E; [|vm_compute in E; discriminate E].
  exists r, self'. split; [reflexivity|].
  destruct (relay_update_then_value relay1 self' (t0 + timedelta 60) (fl 0) false r)
    as (Hv & He & Hon); trivial.
  - intros x [<-|[]]. cbn [RelayHistory.timestamp]. unfold t0, timedelta. lia.
  - repeat split; trivial.
    destruct (Relay.is_on self' (t0 + timedelta 60)); trivial.
    assert (Hlt : (0 < fl 0)%Qc) by now apply Hon.
    vm_compute in Hlt. discriminate Hlt.
Defined.

(** X2. After a call of [Button.update] with a reading [v] that returns,
    on a button none of whose rows is later than the clock, the current
    value of the button at that instant is [v] and the button is not in
    error. *)
Theorem button_update_then_value (self self' : Button.t) (now : datetime)
    (v : float) (force : bool) (r : option ButtonHistory.t) :
  in_the_past ButtonHistory.timestamp now (Button.history self) ->
  Button.update self now (Some v) force = Ok (r, self') ->
  Button.value self' now = Some v /\ Button.error self' now = false.
Proof.
  intros Hpast Hu.
  assert (Hv : Button.value self' now = Some v).
  { apply Button_update_cases in Hu.
    destruct Hu as [(_ & -> & _ & Hv)|(row & _ & -> & -> & Hpk & _)]; trivial.
    apply (Button_value_newest self (ButtonHistory.mk _ now v) now);
      cbn [ButtonHistory.timestamp].
    - now apply not_later_pk_free.
    - unfold timedelta. lia. }
  unfold Button.error. now rewrite Hv.
Qed.

Lemma button_update_then_value_witness :
  exists r self',
    Button.update button0 t0 (Some (fl 1)) false = Ok (r, self') /\
    Button.value self' t0 = Some (fl 1) /\ Button.error self' t0 = false.
Proof.
  destruct (Button.update button0 t0 (Some (fl 1)) false)
    as [[r self']|e] eqn:E; [|vm_compute in E; discriminate E].
  exists r, self'. split; [reflexivity|].
  apply (button_update_then_value button0 self' t0 (fl 1) false r); trivial.
  intros x [].
Defined.

Lemma bucket_on_the_minute (now : datetime) :
  replace_second_microsecond_0 now mod timedelta 60 = 0.
Proof.
  unfold replace_second_microsecond_0.
  assert (Hm : 0 < timedelta 60) by reflexivity.
  rewrite Zminus_mod, Z.mod_mod, Z.sub_diag by lia. reflexivity.
Qed.

Lemma bucket_bounds (now : datetime) :
  now - timedelta 60 < replace_second_microsecond_0 now <= now.
Proof.
  unfold replace_second_microsecond_0.
  assert (0 <= now mod timedelta 60 < timedelta 60)
    by (apply Z.mod_pos_bound; reflexivity).
  lia.
Qed.

(** A timestamp on the minute that is not later than the clock is not later
    than the minute of the clock. *)
Lemma on_the_minute_le_bucket (t now : datetime) :
  t mod timedelta 60 = 0 -> t <= now -> t <= replace_second_microsecond_0 now.
Proof.
  intros Ht Hle. unfold replace_second_microsecond_0.
  assert (Hm : 0 < timedelta 60) by reflexivity.
  assert (Hd : t / timedelta 60 <= now / timedelta 60)
    by (apply Z.div_le_mono; lia).
  pose proof (Z.div_mod t (timedelta 60)) as Et.
  pose proof (Z.div_mod now (timedelta 60)) as En.
  assert (timedelta 60 * (t / timedelta 60) <= timedelta 60 * (now / timedelta 60))
    by (apply Z.mul_le_mono_nonneg_l; lia).
  lia.
Qed.

Lemma Sensor_update_cases (self self' : Sensor.t) (now : datetime) (v : float)
    (r : option SensorHistory.t) :
  Sensor.update self now (Some v) = Ok (r, self') ->
  let bucket := replace_second_microsecond_0 now in
  (exists sd,
      at_timestamp SensorHistory.timestamp bucket (Sensor.history self) = Some sd /\
      r = Some (averaged self sd v) /\
      self' = Sensor.with_history self
                (replace_pk SensorHistory.timestamp (averaged self sd v)
                   (Sensor.history self))) \/
  (at_timestamp SensorHistory.timestamp bucket (Sensor.history self) = None /\
   r = Some (verbatim self bucket v) /\
   self' = Sensor.with_history self (Sensor.history self ++ [verbatim self bucket v])).
Proof.
  intros Hu bucket.
  destruct (at_timestamp SensorHistory.timestamp bucket (Sensor.history self))
    as [sd|] eqn:E.
  - rewrite (Sensor_update_merge self now v sd E) in Hu. injection Hu as <- <-.
    left. now exists sd.
  - rewrite (Sensor_update_create self now v E) in Hu. injection Hu as <- <-.
    now right.
Qed.

Lemma Sensor_update_row (self self' : Sensor.t) (now : datetime) (v : float)
    (r : option SensorHistory.t) :
  Sensor.update self now (Some v) = Ok (r, self') ->
  exists row,
    r = Some row /\
    SensorHistory.timestamp row = replace_second_microsecond_0 now /\
    at_timestamp SensorHistory.timestamp (replace_second_microsecond_0 now)
      (Sensor.history self') = Some row.
Proof.
  intros Hu. apply Sensor_update_cases in Hu.
  destruct Hu as [(sd & Hsd & -> & ->)|(Hnone & -> & ->)];
    eexists; (split; [reflexivity|]); cbn [Sensor.history Sensor.with_history].
  - destruct (at_timestamp_Some _ _ _ _ _ Hsd) as (_ & Ht & Hpk).
    split; [exact Ht|]. rewrite <- Ht.
    apply (replace_pk_at_timestamp _ SensorHistory.timestamp (averaged self sd v)).
    cbn [averaged SensorHistory.timestamp]. now rewrite Ht.
  - split; [reflexivity|]. apply at_timestamp_None in Hnone.
    now apply (insert_fresh _ SensorHistory.timestamp (verbatim self _ v)).
Qed.

Lemma Sensor_update_on_the_minute (self self' : Sensor.t) (now : datetime)
    (value : option float) (r : option SensorHistory.t) :
  Sensor.update self now value = Ok (r, self') ->
  on_the_minute (Sensor.history self) -> on_the_minute (Sensor.history self').
Proof.
  destruct value as [v|]; [|now intros [= <- <-]].
  intros Hu Hmin. apply Sensor_update_cases in Hu.
  destruct Hu as [(sd & Hsd & _ & ->)|(Hnone & _ & ->)];
    cbn [Sensor.history Sensor.with_history]; intros x Hx.
  - assert (Hm : In (SensorHistory.timestamp x)
                   (map SensorHistory.timestamp (Sensor.history self))).
    { rewrite <- (replace_pk_timestamps SensorHistory.timestamp (averaged self sd v)).
      now apply in_map. }
    apply in_map_iff in Hm. destruct Hm as (y & <- & Hy). now apply Hmin.
  - apply in_app_iff in Hx. destruct Hx as [Hx|[<-|[]]]; [now apply Hmin|].
    apply bucket_on_the_minute.
Qed.

(** X3. After [Sensor.update] with a reading, on a history that keeps the
    primary key and whose rows start a minute and are not later than the
    clock, the row the call returns is the current value of the sensor at
    that instant: the sensor is not in error and its alarm is the test of
    the value of that row against the configured alarm thresholds. *)
Theorem sensor_update_then_value (self self' : Sensor.t) (now : datetime)
    (v : float) (r : option SensorHistory.t) :
  unique_timestamps SensorHistory.timestamp (Sensor.history self) ->
  in_the_past SensorHistory.timestamp now (Sensor.history self) ->
  on_the_minute (Sensor.history self) ->
  Sensor.update self now (Some v) = Ok (r, self') ->
  exists row,
    r = Some row /\
    Sensor.value self' now = Some (SensorHistory.value row) /\
    Sensor.error self' now = false /\
    Sensor.alarm self' now =
    Ok (negb (float_leb (Sensor.alarm_min self) (SensorHistory.value row)
              && float_leb (SensorHistory.value row) (Sensor.alarm_max self))).
Proof.
  intros Hu Hpast Hmin Hup.
  destruct (Sensor_update_invariants self self' now (Some v) r Hup) as [Hu' Hpast'].
  pose proof (Sensor_update_on_the_minute self self' now (Some v) r Hup Hmin) as Hmin'.
  destruct (Sensor_update_row self self' now v r Hup) as (row & -> & Ht & Hat).
  exists row. split; [reflexivity|].
  assert (Hv : Sensor.value self' now = Some (SensorHistory.value row)).
  { unfold Sensor.value.
    change (timedelta Sensor.__MAX_VALUE_AGE) with (timedelta 300).
    rewrite (most_recent_latest_since _ SensorHistory.timestamp 300 now
               (Sensor.history self') row); auto.
    destruct (at_timestamp_Some _ _ _ _ _ Hat) as (Hin & _ & _).
    pose proof (bucket_bounds now) as Hb.
    unfold most_recent_within, within_window. rewrite Ht.
    split; [exact Hin|]. split; [unfold timedelta in *; lia|].
    intros x Hx _. apply on_the_minute_le_bucket.
    - exact (Hmin' x Hx).
    - exact (Hpast' Hpast x Hx). }
  assert (Hcfg : Sensor.alarm_min self' = Sensor.alarm_min self /\
                 Sensor.alarm_max self' = Sensor.alarm_max self).
  { apply Sensor_update_cases in Hup.
    destruct Hup as [(sd & _ & _ & ->)|(_ & _ & ->)]; split; reflexivity. }
  destruct Hcfg as [Hmin_eq Hmax_eq].
  unfold Sensor.alarm, Sensor.error. rewrite Hv, Hmin_eq, Hmax_eq. auto.
Qed.

Lemma sensor_update_then_value_witness :
  exists r self' row,
    Sensor.update sensor2 (t0 + timedelta 150) (Some (fl 40)) = Ok (r, self') /\
    r = Some row /\
    SensorHistory.value row = fl 36.5 /\
    Sensor.value self' (t0 + timedelta 150) = Some (SensorHistory.value row) /\
    Sensor.error self' (t0 + timedelta 150) = false /\
    Sensor.alarm self' (t0 + timedelta 150) = Ok true.
Proof.
  destruct (Sensor.update sensor2 (t0 + timedelta 150) (Some (fl 40)))
    as [[r self']|e] eqn:E; [|vm_compute in E; discriminate E].
  destruct (sensor_update_then_value sensor2 self' (t0 + timedelta 150) (fl 40) r)
    as (row & Hr & Hv & He & Ha); trivial.
  - unfold unique_timestamps.
    cbn [sensor2 Sensor.history Sensor.with_history map SensorHistory.timestamp].
    constructor.
    + intros [H|[]]. unfold t0, timedelta in H. lia.
    + constructor; [intros []|constructor].
  - intros x [<-|[<-|[]]]; cbn [SensorHistory.timestamp]; unfold t0, timedelta; lia.
  - intros x [<-|[<-|[]]]; cbn [SensorHistory.timestamp]; reflexivity.
  - exists r, self', row.
    assert (Hrow : SensorHistory.value row = fl 36.5).
    { subst r. vm_compute in E. injection E as E _. rewrite <- E.
      apply Qc_is_canon. reflexivity. }
    repeat split; trivial.
    rewrite Ha, Hrow. vm_compute. reflexivity.
Defined.

(** ** How long a reading stays current *)

Lemma latest_since_later {row : Type} (timestamp : row -> datetime)
    (limit limit' : datetime) (h : list row) :
  limit <= limit' ->
  latest_since timestamp limit h = None ->
  latest_since timestamp limit' h = None.
Proof.
  intros Hle H. apply latest_since_None. intros x Hx.
  specialize (proj1 (latest_since_None _ timestamp limit h) H x Hx). lia.
Qed.

(** X4. A row that [Relay.update] or [Button.update] has written, on a
    history with no row later than the clock, is the current value from the
    call until 3900 seconds after it and not a moment longer: without a
    further reading the entity is in error from then on. *)
Theorem written_reading_expires (now now' : datetime) (v : float) (force : bool) :
  now <= now' ->
  (forall (self self' : Relay.t) (row : RelayHistory.t),
      in_the_past RelayHistory.timestamp now (Relay.history self) ->
      Relay.update self now (Some v) force = Ok (Some row, self') ->
      (Relay.value self' now' = Some v <-> now' <= now + timedelta 3900) /\
      (Relay.error self' now' = true <-> now + timedelta 3900 < now')) /\
  (forall (self self' : Button.t) (row : ButtonHistory.t),
      in_the_past ButtonHistory.timestamp now (Button.history self) ->
      Button.update self now (Some v) force = Ok (Some row, self') ->
      (Button.value self' now' = Some v <-> now' <= now + timedelta 3900) /\
      (Button.error self' now' = true <-> now + timedelta 3900 < now')).
Proof.
  intros Hle. split.
  - intros self self' row Hpast Hu. apply Relay_update_cases in Hu.
    destruct Hu as [([=] & _)|(row' & _ & -> & -> & Hpk & _)].
    pose proof (not_later_pk_free _ _ _ Hpast Hpk) as Hearlier.
    destruct (Z.le_gt_cases now' (now + timedelta 3900)) as [Hin|Hout].
    + assert (Hv : Relay.value
                     (Relay.with_history self
                        (Relay.history self ++
                         [RelayHistory.mk (Relay.id self) now v
                            (v / Q2Qc 100 * Relay.wattage self)%Qc
                            (v / Q2Qc 100 * Relay.flow self)%Qc])) now' = Some v)
        by (apply (Relay_value_newest self (RelayHistory.mk _ now v _ _) now');
            trivial).
      unfold Relay.error. rewrite Hv. split; split; trivial; try discriminate; lia.
    + assert (Hv : Relay.value
                     (Relay.with_history self
                        (Relay.history self ++
                         [RelayHistory.mk (Relay.id self) now v
                            (v / Q2Qc 100 * Relay.wattage self)%Qc
                            (v / Q2Qc 100 * Relay.flow self)%Qc])) now' = None).
      { unfold Relay.value. cbn [Relay.history Relay.with_history].
        replace (latest_since RelayHistory.timestamp
                   (now' - timedelta Relay.__MAX_VALUE_AGE) _)
          with (@None RelayHistory.t); trivial.
        symmetry. apply latest_since_None. intros x Hx.
        change (timedelta Relay.__MAX_VALUE_AGE) with (timedelta 3900).
        apply in_app_iff in Hx. destruct Hx as [Hx|[<-|[]]].
        - specialize (Hearlier x Hx). lia.
        - cbn [RelayHistory.timestamp]. lia. }
      unfold Relay.error. rewrite Hv. split; split; trivial; try discriminate; lia.
  - intros self self' row Hpast Hu. apply Button_update_cases in Hu.
    destruct Hu as [([=] & _)|(row' & _ & -> & -> & Hpk & _)].
    pose proof (not_later_pk_free _ _ _ Hpast Hpk) as Hearlier.
    destruct (Z.le_gt_cases now' (now + timedelta 3900)) as [Hin|Hout].
    + assert (Hv : Button.value
                     (Button.with_history self
                        (Button.history self ++
                         [ButtonHistory.mk (Button.id self) now v])) now' = Some v)
        by (apply (Button_value_newest self (ButtonHistory.mk _ now v) now');
            trivial).
      unfold Button.error. rewrite Hv. split; split; trivial; try discriminate; lia.
    + assert (Hv : Button.value
                     (Button.with_history self
                        (Button.history self ++
                         [ButtonHistory.mk (Button.id self) now v])) now' = None).
      { unfold Button.value. cbn [Button.history Button.with_history].
        replace (latest_since ButtonHistory.timestamp
                   (now' - timedelta Button.__MAX_VALUE_AGE) _)
          with (@None ButtonHistory.t); trivial.
        symmetry. apply latest_since_None. intros x Hx.
        change (timedelta Button.__MAX_VALUE_AGE) with (timedelta 3900).
        apply in_app_iff in Hx. destruct Hx as [Hx|[<-|[]]].
        - specialize (Hearlier x Hx). lia.
        - cbn [ButtonHistory.timestamp]. lia. }
      unfold Button.error. rewrite Hv. split; split; trivial; try discriminate; lia.
Qed.

Lemma written_reading_expires_witness :
  exists row self',
    Relay.update relay0 t0 (Some (fl 100)) false = Ok (Some row, self') /\
    Relay.value self' (t0 + timedelta 3900) = Some (fl 100) /\
    Relay.error self' (t0 + timedelta 3900 + 1) = true.
Proof.
  assert (Hu : exists row self',
             Relay.update relay0 t0 (Some (fl 100)) false = Ok (Some row, self')).
  { eexists. eexists.
    apply (Relay_update_insert relay0 t0 (fl 100) false); [right|reflexivity].
    intros H. vm_compute in H. discriminate H. }
  destruct Hu as (row & self' & Hu). exists row, self'. split; [exact Hu|].
  assert (Hpast : in_the_past RelayHistory.timestamp t0 (Relay.history relay0))
    by (intros x []).
  split.
  - destruct (written_reading_expires t0 (t0 + timedelta 3900) (fl 100) false)
      as [HR _]; [unfold timedelta; lia|].
    destruct (HR relay0 self' row Hpast Hu) as [Hv _]. apply Hv. lia.
  - destruct (written_reading_expires t0 (t0 + timedelta 3900 + 1) (fl 100) false)
      as [HR _]; [unfold timedelta; lia|].
    destruct (HR relay0 self' row Hpast Hu) as [_ He]. apply He. lia.
Defined.



(** X6. Time alone never clears an error: a sensor, relay or button that
    has no current value at some instant has none at any later instant, as
    long as its history is the same. *)
Theorem error_persists (now now' : datetime) :
  now <= now' ->
  (forall s : Sensor.t, Sensor.error s now = true -> Sensor.error s now' = true) /\
  (forall s : Relay.t, Relay.error s now = true -> Relay.error s now' = true) /\
  (forall s : Button.t, Button.error s now = true -> Button.error s now' = true).
Proof.
  intros Hle. split; [|split]; intros s.
  - unfold Sensor.error, Sensor.value.
    destruct (latest_since SensorHistory.timestamp
                (now - timedelta Sensor.__MAX_VALUE_AGE) (Sensor.history s)) eqn:E;
      [discriminate|].
    intros _.
    assert (Hl : now - timedelta Sensor.__MAX_VALUE_AGE
                 <= now' - timedelta Sensor.__MAX_VALUE_AGE) by lia.
    now rewrite (latest_since_later _ _ _ _ Hl E).
  - unfold Relay.error, Relay.value.
    destruct (latest_since RelayHistory.timestamp
                (now - timedelta Relay.__MAX_VALUE_AGE) (Relay.history s)) eqn:E;
      [discriminate|].
    intros _.
    assert (Hl : now - timedelta Relay.__MAX_VALUE_AGE
                 <= now' - timedelta Relay.__MAX_VALUE_AGE) by lia.
    now rewrite (latest_since_later _ _ _ _ Hl E).
  - unfold Button.error, Button.value.
    destruct (latest_since ButtonHistory.timestamp
                (now - timedelta Button.__MAX_VALUE_AGE) (Button.history s)) eqn:E;
      [discriminate|].
    intros _.
    assert (Hl : now - timedelta Button.__MAX_VALUE_AGE
                 <= now' - timedelta Button.__MAX_VALUE_AGE) by lia.
    now rewrite (latest_since_later _ _ _ _ Hl E).
Qed.

Lemma error_persists_witness :
  Relay.error relay1 (t0 + timedelta 4000) = true /\
  Relay.error relay1 (t0 + timedelta 9000) = true.
Proof.
  assert (H : Relay.error relay1 (t0 + timedelta 4000) = true)
    by (vm_compute; reflexivity).
  split; [exact H|].
  destruct (error_persists (t0 + timedelta 4000) (t0 + timedelta 9000))
    as (_ & HR & _); [unfold timedelta; lia|].
  exact (HR relay1 H).
Defined.

(** ** What an update leaves alone *)

(** X7. [Relay.update] and [Button.update] only ever append: when a call
    returns, the history is the history before followed by the row it
    returned, if any, that row carries the clock of the call and the id of
    its owner, and the configuration of the entity is untouched. No
    existing row is changed or removed, whatever the reading and the force
    flag. *)
Theorem relay_button_append_only (now : datetime) (new_value : option float)
    (force : bool) :
  (forall (self self' : Relay.t) (r : option RelayHistory.t),
      Relay.update self now new_value force = Ok (r, self') ->
      Relay.history self' =
        Relay.history self ++ match r with Some row => [row] | None => [] end /\
      self' = Relay.with_history self (Relay.history self') /\
      forall row, r = Some row ->
        RelayHistory.timestamp row = now /\ RelayHistory.relay row = Relay.id self /\
        Some (RelayHistory.value row) = new_value) /\
  (forall (self self' : Button.t) (r : option ButtonHistory.t),
      Button.update self now new_value force = Ok (r, self') ->
      Button.history self' =
        Button.history self ++ match r with Some row => [row] | None => [] end /\
      self' = Button.with_history self (Button.history self') /\
      forall row, r = Some row ->
        ButtonHistory.timestamp row = now /\ ButtonHistory.button row = Button.id self /\
        Some (ButtonHistory.value row) = new_value).
Proof.
  split; intros self self' r Hu.
  - destruct new_value as [v|].
    + apply Relay_update_cases in Hu.
      destruct Hu as [(-> & -> & _)|(row & -> & -> & -> & _)].
      * rewrite app_nil_r. destruct self.
        split; [reflexivity|]. split; [reflexivity|]. discriminate.
      * cbn [Relay.history Relay.with_history].
        split; [reflexivity|]. split; [reflexivity|].
        intros row' [= <-]. repeat split.
    + injection Hu as <- <-. rewrite app_nil_r. destruct self.
      split; [reflexivity|]. split; [reflexivity|]. discriminate.
  - destruct new_value as [v|].
    + apply Button_update_cases in Hu.
      destruct Hu as [(-> & -> & _)|(row & -> & -> & -> & _)].
      * rewrite app_nil_r. destruct self.
        split; [reflexivity|]. split; [reflexivity|]. discriminate.
      * cbn [Button.history Button.with_history].
        split; [reflexivity|]. split; [reflexivity|].
        intros row' [= <-]. repeat split.
    + injection Hu as <- <-. rewrite app_nil_r. destruct self.
      split; [reflexivity|]. split; [reflexivity|]. discriminate.
Qed.

Lemma relay_button_append_only_witness :
  exists r self',
    Relay.update relay1 (t0 + timedelta 60) (Some (fl 0)) false = Ok (Some r, self') /\
    Relay.history self' = Relay.history relay1 ++ [r] /\
    RelayHistory.timestamp r = t0 + timedelta 60.
Proof.
  assert (Hu : exists r self',
             Relay.update relay1 (t0 + timedelta 60) (Some (fl 0)) false
             = Ok (Some r, self')).
  { eexists. eexists.
    apply (Relay_update_insert relay1 (t0 + timedelta 60) (fl 0) false).
    - right. intros H. vm_compute in H. discriminate H.
    - vm_compute. reflexivity. }
  destruct Hu as (r & self' & Hu). exists r, self'. split; [exact Hu|].
  destruct (relay_button_append_only (t0 + timedelta 60) (Some (fl 0)) false)
    as [HR _].
  destruct (HR relay1 self' (Some r) Hu) as (Hh & _ & Hrow).
  split; [exact Hh|]. exact (proj1 (Hrow r eq_refl)).
Defined.

Lemma replace_pk_In_other {row : Type} (timestamp : row -> datetime)
    (r x : row) (h : list row) :
  timestamp x <> timestamp r ->
  (In x (replace_pk timestamp r h) <-> In x h).
Proof.
  intros Hx. induction h as [|a h IH]; simpl; [tauto|].
  destruct (timestamp a =? timestamp r) eqn:E; simpl.
  - apply Z.eqb_eq in E. split; intros [H|H]; auto.
    + subst x. now destruct Hx.
    + subst x. now destruct Hx.
  - rewrite IH. tauto.
Qed.

(** X8. [Sensor.update] touches the row of the minute of the call and no
    other: a row with another timestamp is in the history afterwards
    exactly when it was before, and the history grows by one row when the
    minute had none and keeps its length otherwise. A call without a
    reading leaves the sensor as it is. *)
Theorem sensor_update_only_its_bucket (self self' : Sensor.t) (now : datetime)
    (value : option float) (r : option SensorHistory.t) :
  Sensor.update self now value = Ok (r, self') ->
  let bucket := replace_second_microsecond_0 now in
  (forall x, SensorHistory.timestamp x <> bucket ->
     (In x (Sensor.history self') <-> In x (Sensor.history self))) /\
  (forall t, t <> bucket ->
     rows_at SensorHistory.timestamp t (Sensor.history self')
     = rows_at SensorHistory.timestamp t (Sensor.history self)) /\
  List.length (Sensor.history self') =
    (List.length (Sensor.history self)
     + match value with
       | None => 0
       | Some _ =>
           if pk_exists SensorHistory.timestamp bucket (Sensor.history self)
           then 0 else 1
       end)%nat /\
  (value = None -> r = None /\ self' = self).
Proof.
  intros Hu bucket. destruct value as [v|].
  - apply Sensor_update_cases in Hu. fold bucket in Hu.
    destruct Hu as [(sd & Hsd & -> & ->)|(Hnone & -> & ->)];
      cbn [Sensor.history Sensor.with_history].
    + destruct (at_timestamp_Some _ _ _ _ _ Hsd) as (_ & Ht & Hpk).
      rewrite Hpk. split; [|split; [|split]].
      * intros x Hx. apply replace_pk_In_other.
        cbn [averaged SensorHistory.timestamp]. congruence.
      * intros t _. apply replace_pk_rows_at.
      * rewrite replace_pk_length. lia.
      * discriminate.
    + apply at_timestamp_None in Hnone. rewrite Hnone.
      split; [|split; [|split]].
      * intros x Hx. rewrite in_app_iff. split; [|now left].
        intros [H|[<-|[]]]; trivial. now destruct Hx.
      * intros t Ht. rewrite rows_at_app.
        assert (Hz : rows_at SensorHistory.timestamp t [verbatim self bucket v] = O).
        { apply rows_at_0. apply pk_exists_false. intros y [<-|[]].
          cbn [verbatim SensorHistory.timestamp]. congruence. }
        rewrite Hz. lia.
      * rewrite length_app. reflexivity.
      * discriminate.
  - injection Hu as <- <-. destruct self. cbn [Sensor.history Sensor.with_history].
    split; [|split; [|split]]; [intros; tauto | reflexivity | lia | auto].
Qed.

Lemma sensor_update_only_its_bucket_witness :
  exists r self',
    Sensor.update sensor2 (t0 + timedelta 150) (Some (fl 40)) = Ok (r, self') /\
    In (SensorHistory.mk "28-0317607252ff" t0 (fl 10) (fl 0) (fl 100) (fl 18) (fl 35))
       (Sensor.history self') /\
    List.length (Sensor.history self') = 2%nat.
Proof.
  destruct (Sensor.update sensor2 (t0 + timedelta 150) (Some (fl 40)))
    as [[r self']|e] eqn:E; [|vm_compute in E; discriminate E].
  exists r, self'. split; [reflexivity|].
  destruct (sensor_update_only_its_bucket sensor2 self' (t0 + timedelta 150)
              (Some (fl 40)) r E) as (Hother & _ & Hlen & _).
  split.
  - apply Hother.
    + cbn [SensorHistory.timestamp]. intros H. vm_compute in H. discriminate H.
    + left. reflexivity.
  - rewrite Hlen. vm_compute. reflexivity.
Defined.

(** ** What every update keeps *)

(** X9. The update methods keep the primary key of the history tables: a
    history in which no two rows share a timestamp is still one after any
    call of [Sensor.update], [Relay.update] or [Button.update] that
    returns, whatever the clock, the reading and the force flag. *)
Theorem update_keeps_primary_key (now : datetime) (new_value : option float)
    (force : bool) :
  (forall (self self' : Sensor.t) r,
      unique_timestamps SensorHistory.timestamp (Sensor.history self) ->
      Sensor.update self now new_value = Ok (r, self') ->
      unique_timestamps SensorHistory.timestamp (Sensor.history self') /\
      forall t, (rows_at SensorHistory.timestamp t (Sensor.history self') <= 1)%nat) /\
  (forall (self self' : Relay.t) r,
      unique_timestamps RelayHistory.timestamp (Relay.history self) ->
      Relay.update self now new_value force = Ok (r, self') ->
      unique_timestamps RelayHistory.timestamp (Relay.history self') /\
      forall t, (rows_at RelayHistory.timestamp t (Relay.history self') <= 1)%nat) /\
  (forall (self self' : Button.t) r,
      unique_timestamps ButtonHistory.timestamp (Button.history self) ->
      Button.update self now new_value force = Ok (r, self') ->
      unique_timestamps ButtonHistory.timestamp (Button.history self') /\
      forall t, (rows_at ButtonHistory.timestamp t (Button.history self') <= 1)%nat).
Proof.
  assert (Hrows : forall (row : Type) (timestamp : row -> datetime) (h : list row),
             unique_timestamps timestamp h ->
             forall t, (rows_at timestamp t h <= 1)%nat).
  { intros row timestamp h. unfold unique_timestamps, rows_at.
    induction h as [|x h IH]; simpl; intros Hnd t; [lia|].
    inversion Hnd as [|y l Hnot Hnd']; subst.
    destruct (timestamp x =? t) eqn:E; simpl; [|now apply IH].
    apply Z.eqb_eq in E. subst t.
    assert (Hz : filter (fun h0 => timestamp h0 =? timestamp x) h = []).
    { destruct (filter (fun h0 => timestamp h0 =? timestamp x) h) as [|y l] eqn:F;
        trivial.
      assert (Hy : In y (filter (fun h0 => timestamp h0 =? timestamp x) h))
        by (rewrite F; now left).
      apply filter_In in Hy. destruct Hy as [Hy Ht]. apply Z.eqb_eq in Ht.
      destruct Hnot. rewrite <- Ht. now apply in_map. }
    rewrite Hz. simpl. lia. }
  split; [|split]; intros self self' r Hu Hup.
  - destruct (Sensor_update_invariants self self' now new_value r Hup) as [H _].
    split; [now apply H|]. apply Hrows. now apply H.
  - destruct (Relay_update_invariants self self' now new_value force r Hup) as [H _].
    split; [now apply H|]. apply Hrows. now apply H.
  - destruct (Button_update_invariants self self' now new_value force r Hup) as [H _].
    split; [now apply H|]. apply Hrows. now apply H.
Qed.

Lemma update_keeps_primary_key_witness :
  exists r self',
    Sensor.update sensor2 (t0 + timedelta 150) (Some (fl 40)) = Ok (r, self') /\
    unique_timestamps SensorHistory.timestamp (Sensor.history self') /\
    (rows_at SensorHistory.timestamp (t0 + timedelta 120)%Z (Sensor.history self')
     <= 1)%nat.
Proof.
  destruct (Sensor.update sensor2 (t0 + timedelta 150) (Some (fl 40)))
    as [[r self']|e] eqn:E; [|vm_compute in E; discriminate E].
  exists r, self'. split; [reflexivity|].
  destruct (update_keeps_primary_key (t0 + timedelta 150) (Some (fl 40)) false)
    as (HS & _).
  destruct (HS sensor2 self' r) as [Hu Hrows]; trivial.
  - unfold unique_timestamps.
    cbn [sensor2 Sensor.history Sensor.with_history map SensorHistory.timestamp].
    constructor.
    + intros [H|[]]. unfold t0, timedelta in H. lia.
    + constructor; [intros []|constructor].
  - split; [exact Hu | apply Hrows].
Defined.

(** X10. The update methods keep the rows of a history in the past of the
    clock, however late the history is read, and [Sensor.update] keeps
    every row of a sensor history on the start of a minute: it never writes
    a row with seconds or microseconds, nor one that is later than the
    call. *)
Theorem update_keeps_timestamps (now now' : datetime) (new_value : option float)
    (force : bool) :
  now <= now' ->
  (forall (self self' : Sensor.t) r,
      Sensor.update self now new_value = Ok (r, self') ->
      (in_the_past SensorHistory.timestamp now (Sensor.history self) ->
       in_the_past SensorHistory.timestamp now' (Sensor.history self')) /\
      (on_the_minute (Sensor.history self) -> on_the_minute (Sensor.history self')) /\
      (forall row, r = Some row ->
         SensorHistory.timestamp row mod timedelta 60 = 0 /\
         now - timedelta 60 < SensorHistory.timestamp row <= now)) /\
  (forall (self self' : Relay.t) r,
      Relay.update self now new_value force = Ok (r, self') ->
      in_the_past RelayHistory.timestamp now (Relay.history self) ->
      in_the_past RelayHistory.timestamp now' (Relay.history self')) /\
  (forall (self self' : Button.t) r,
      Button.update self now new_value force = Ok (r, self') ->
      in_the_past ButtonHistory.timestamp now (Button.history self) ->
      in_the_past ButtonHistory.timestamp now' (Button.history self')).
Proof.
  intros Hle. split; [|split]; intros self self' r Hup.
  - split; [|split].
    + intros Hpast. apply (in_the_past_later _ now now'); trivial.
      now apply (Sensor_update_invariants self self' now new_value r Hup).
    + now apply (Sensor_update_on_the_minute self self' now new_value r).
    + intros row ->. destruct new_value as [v|]; [|discriminate Hup].
      destruct (Sensor_update_row self self' now v _ Hup) as (row' & [= <-] & Ht & _).
      rewrite Ht. split; [apply bucket_on_the_minute | apply bucket_bounds].
  - intros Hpast. apply (in_the_past_later _ now now'); trivial.
    now apply (Relay_update_invariants self self' now new_value force r Hup).
  - intros Hpast. apply (in_the_past_later _ now now'); trivial.
    now apply (Button_update_invariants self self' now new_value force r Hup).
Qed.

Lemma update_keeps_timestamps_witness :
  exists r self',
    Sensor.update sensor2 (t0 + timedelta 150) (Some (fl 40)) = Ok (Some r, self') /\
    SensorHistory.timestamp r = t0 + timedelta 120 /\
    on_the_minute (Sensor.history self') /\
    in_the_past SensorHistory.timestamp (t0 + timedelta 200) (Sensor.history self').
Proof.
  destruct (Sensor.update sensor2 (t0 + timedelta 150) (Some (fl 40)))
    as [[[r|] self']|e] eqn:E; try (vm_compute in E; discriminate E).
  exists r, self'. split; [reflexivity|].
  destruct (update_keeps_timestamps (t0 + timedelta 150) (t0 + timedelta 200)
              (Some (fl 40)) false) as (HS & _); [unfold timedelta; lia|].
  destruct (HS sensor2 self' (Some r) E) as (Hpast & Hmin & _).
  split; [|split].
  - vm_compute in E. injection E as E _. rewrite <- E. reflexivity.
  - apply Hmin.
    intros x [<-|[<-|[]]]; cbn [SensorHistory.timestamp]; reflexivity.
  - apply Hpast.
    intros x [<-|[<-|[]]]; cbn [SensorHistory.timestamp]; unfold t0, timedelta; lia.
Defined.

(** ** The stored value of a minute *)

Lemma this_Q2Qc (q : Q) : (this (Q2Qc q) == q)%Q.
Proof. unfold Q2Qc. cbn [this]. apply Qred_correct. Qed.

Lemma average_half (a b : float) :
  (this (average a b) == (this a + this b) * (1 # 2))%Q.
Proof.
  unfold average, Qcdiv, Qcmult, Qcplus, Qcinv.
  rewrite !this_Q2Qc. reflexivity.
Qed.

Lemma average_between (lo hi a b : float) :
  between lo hi a -> between lo hi b -> between lo hi (average a b).
Proof.
  unfold between, Qcle. intros [Ha1 Ha2] [Hb1 Hb2].
  rewrite average_half. split; lra.
Qed.

Lemma cumulative_average_between (lo hi : float) (later : list float) :
  forall first_reading,
    between lo hi first_reading ->
    Forall (between lo hi) later ->
    between lo hi (cumulative_average first_reading later).
Proof.
  unfold cumulative_average.
  induction later as [|v later IH]; intros u Hu Hl; simpl; trivial.
  inversion Hl as [|x l Hv Hrest]; subst.
  apply IH; trivial. now apply average_between.
Qed.

(** X11. Averaging never leaves the range of the readings, for bounds
    within [no_overflow] (the sum of two readings is then finite): when the
    row of the minute holds a value between [lo] and [hi] and the reading
    is between them, so is the value [Sensor.update] stores; and after any
    number of readings in one minute, the first of which met no row, the
    stored value lies between the least and the greatest bound of the
    readings. *)
Theorem sensor_stored_value_between (self : Sensor.t) (now : datetime)
    (v lo hi : float) :
  let bucket := replace_second_microsecond_0 now in
  no_overflow lo -> no_overflow hi ->
  between lo hi v ->
  (forall sd,
      at_timestamp SensorHistory.timestamp bucket (Sensor.history self) = Some sd ->
      between lo hi (SensorHistory.value sd) ->
      exists row self',
        Sensor.update self now (Some v) = Ok (Some row, self') /\
        between lo hi (SensorHistory.value row)) /\
  (forall later : list (datetime * float),
      at_timestamp SensorHistory.timestamp bucket (Sensor.history self) = None ->
      same_bucket bucket later ->
      Forall (fun c => between lo hi (snd c)) later ->
      exists self' sd,
        Sensor.updates self ((now, v) :: later) = Ok self' /\
        at_timestamp SensorHistory.timestamp bucket (Sensor.history self') = Some sd /\
        between lo hi (SensorHistory.value sd)).
Proof.
  intros bucket _ _ Hv. split.
  - intros sd Hsd Hold. eexists. eexists.
    split; [exact (Sensor_update_merge self now v sd Hsd)|].
    cbn [averaged SensorHistory.value]. now apply average_between.
  - intros later Hnone Hb Hl.
    cbn [Sensor.updates]. rewrite (Sensor_update_create self now v Hnone).
    cbn [bind snd]. fold bucket.
    set (sd0 := verbatim self bucket v).
    apply at_timestamp_None in Hnone.
    destruct (insert_fresh _ SensorHistory.timestamp sd0 (Sensor.history self) Hnone)
      as [_ Hat].
    destruct (Sensor_updates_merge bucket later
                (Sensor.with_history self (Sensor.history self ++ [sd0])) sd0 Hb Hat)
      as (h' & sd' & Hu & _ & Hat' & Hval).
    exists (Sensor.with_history self h'), sd'.
    split; [exact Hu|]. split; [exact Hat'|].
    rewrite Hval. apply cumulative_average_between; trivial.
    clear - Hl. induction Hl; simpl; constructor; trivial.
Qed.

Lemma sensor_stored_value_between_witness :
  exists self' sd,
    Sensor.updates sensor0
      [(t0 + timedelta 5, fl 10); (t0 + timedelta 20, fl 20);
       (t0 + timedelta 60 - 1, fl 30)] = Ok self' /\
    at_timestamp SensorHistory.timestamp t0 (Sensor.history self') = Some sd /\
    between (fl 10) (fl 30) (SensorHistory.value sd).
Proof.
  destruct (sensor_stored_value_between sensor0 (t0 + timedelta 5)
              (fl 10) (fl 10) (fl 30)) as [_ Hseq].
  - split; vm_compute; discriminate.
  - split; vm_compute; discriminate.
  - split; vm_compute; discriminate.
  - apply (Hseq [(t0 + timedelta 20, fl 20); (t0 + timedelta 60 - 1, fl 30)]).
    + reflexivity.
    + repeat constructor.
    + repeat constructor; vm_compute; discriminate.
Defined.

Lemma averaged_verbatim (self : Sensor.t) (bucket : datetime) (u v : float) :
  thresholds_no_overflow self ->
  averaged self (verbatim self bucket u) v = verbatim self bucket (average u v).
Proof.
  intros (Hlmin & Hlmax & Hamin & Hamax).
  unfold averaged, verbatim. cbn [SensorHistory.sensor SensorHistory.timestamp
    SensorHistory.value SensorHistory.limit_min SensorHistory.limit_max
    SensorHistory.alarm_min SensorHistory.alarm_max].
  now rewrite !average_same_no_overflow.
Qed.

Lemma Sensor_updates_verbatim (bucket : datetime) (calls : list (datetime * float)) :
  forall (self : Sensor.t) (u : float),
    thresholds_no_overflow self ->
    same_bucket bucket calls ->
    at_timestamp SensorHistory.timestamp bucket (Sensor.history self)
    = Some (verbatim self bucket u) ->
    exists h',
      Sensor.updates self calls = Ok (Sensor.with_history self h') /\
      at_timestamp SensorHistory.timestamp bucket h'
      = Some (verbatim self bucket (cumulative_average u (map snd calls))).
Proof.
  induction calls as [|[now v] calls IH]; intros self u Hth Hb Hsd.
  - exists (Sensor.history self). destruct self. split; [reflexivity | exact Hsd].
  - inversion Hb as [|c cs Hnow Hrest]; subst c cs. cbn [fst] in Hnow.
    subst bucket.
    cbn [Sensor.updates]. rewrite (Sensor_update_merge self now v _ Hsd).
    cbn [bind snd]. rewrite (averaged_verbatim _ _ _ _ Hth).
    destruct (at_timestamp_Some _ _ _ _ _ Hsd) as (_ & _ & Hpk).
    set (self1 := Sensor.with_history self _).
    assert (H1 : at_timestamp SensorHistory.timestamp
                   (replace_second_microsecond_0 now) (Sensor.history self1)
                 = Some (verbatim self1 (replace_second_microsecond_0 now)
                           (average u v))).
    { apply (replace_pk_at_timestamp _ SensorHistory.timestamp
               (verbatim self (replace_second_microsecond_0 now) (average u v))).
      exact Hpk. }
    destruct (IH self1 (average u v) Hth Hrest H1) as (h' & Hu & Hat).
    exists h'. split; [exact Hu | exact Hat].
Qed.

(** X12. While the configuration of the sensor is not edited and its
    thresholds are within [no_overflow] (twice a threshold is then finite),
    the thresholds recorded in the row of a minute stay the configured ones
    however many readings are merged into it: after any number of readings
    in one minute, the first of which met no row, the row of the minute is
    the row of a first reading whose value is the cumulative average. *)
Theorem sensor_thresholds_stay_configured (self : Sensor.t) (now : datetime)
    (v : float) (later : list (datetime * float)) :
  let bucket := replace_second_microsecond_0 now in
  thresholds_no_overflow self ->
  at_timestamp SensorHistory.timestamp bucket (Sensor.history self) = None ->
  same_bucket bucket later ->
  exists self',
    Sensor.updates self ((now, v) :: later) = Ok self' /\
    at_timestamp SensorHistory.timestamp bucket (Sensor.history self')
    = Some (verbatim self bucket (cumulative_average v (map snd later))).
Proof.
  intros bucket Hth Hnone Hb.
  cbn [Sensor.updates]. rewrite (Sensor_update_create self now v Hnone).
  cbn [bind snd]. fold bucket.
  apply at_timestamp_None in Hnone.
  destruct (insert_fresh _ SensorHistory.timestamp (verbatim self bucket v)
              (Sensor.history self) Hnone) as [_ Hat].
  destruct (Sensor_updates_verbatim bucket later
              (Sensor.with_history self
                 (Sensor.history self ++ [verbatim self bucket v])) v Hth Hb Hat)
    as (h' & Hu & Hat').
  exists (Sensor.with_history self h'). split; [exact Hu | exact Hat'].
Qed.

Lemma sensor_thresholds_stay_configured_witness :
  exists self',
    Sensor.updates sensor0
      [(t0 + timedelta 5, fl 10); (t0 + timedelta 20, fl 20);
       (t0 + timedelta 60 - 1, fl 30)] = Ok self' /\
    at_timestamp SensorHistory.timestamp t0 (Sensor.history self')
    = Some (SensorHistory.mk "28-0317607252ff" t0 (fl 22.5)
              (fl 0) (fl 100) (fl 18) (fl 35)).
Proof.
  destruct (sensor_thresholds_stay_configured sensor0 (t0 + timedelta 5) (fl 10)
              [(t0 + timedelta 20, fl 20); (t0 + timedelta 60 - 1, fl 30)])
    as (self' & Hu & Hat).
  - repeat split; vm_compute; discriminate.
  - reflexivity.
  - repeat constructor.
  - exists self'. split; [exact Hu|].
    etransitivity; [exact Hat|]. unfold verbatim.
    do 2 f_equal. apply Qc_is_canon. reflexivity.
Defined.

(** * Properties of create_defaults *)

Lemma setting_exists_app (id : string) (t1 t2 : list Setting.t) :
  setting_exists id (t1 ++ t2) = setting_exists id t1 || setting_exists id t2.
Proof. apply existsb_app. Qed.

Lemma setting_value_app (id : string) (t1 t2 : list Setting.t) :
  setting_value id (t1 ++ t2) =
  match setting_value id t1 with
  | Some v => Some v
  | None => setting_value id t2
  end.
Proof.
  unfold setting_value. induction t1 as [|s t1 IH]; simpl; trivial.
  destruct (String.eqb (Setting.id s) id); simpl; trivial.
Qed.

Lemma setting_value_None (id : string) (table : list Setting.t) :
  setting_value id table = None <-> setting_exists id table = false.
Proof.
  unfold setting_value, setting_exists.
  induction table as [|s table IH]; simpl; [tauto|].
  destruct (String.eqb (Setting.id s) id); simpl; [|exact IH].
  split; discriminate.
Qed.

(** What the loop of [create_defaults] does for any list of defaults: it
    returns the table followed by the defaults whose key was missing. *)
Lemma create_settings_spec (defaults : list Setting.t) :
  forall table,
  exists added,
    create_settings defaults table = Ok (table ++ added) /\
    (forall s, In s added ->
       In s defaults /\ setting_exists (Setting.id s) table = false) /\
    (forall d, In d defaults ->
       setting_exists (Setting.id d) (table ++ added) = true).
Proof.
  induction defaults as [|d defaults IH]; intros table.
  - exists []. rewrite app_nil_r.
    split; [reflexivity|]. split; intros x [].
  - cbn [create_settings]. unfold create_setting.
    destruct (setting_exists (Setting.id d) table) eqn:E; cbn [try_except exn_eqb bind].
    + destruct (IH table) as (added & Hc & Hadd & Hall).
      exists added. split; [exact Hc|]. split.
      * intros s Hs. destruct (Hadd s Hs). split; [now right | trivial].
      * intros d' [<-|Hd']; [|now apply Hall].
        rewrite setting_exists_app, E. reflexivity.
    + destruct (IH (table ++ [d])) as (added & Hc & Hadd & Hall).
      exists (d :: added). rewrite <- app_assoc in Hc. cbn [app] in Hc.
      split; [exact Hc|]. split.
      * intros s [<-|Hs]; [split; [now left | exact E]|].
        destruct (Hadd s Hs) as [Hin Hex]. split; [now right|].
        rewrite setting_exists_app in Hex. now apply orb_false_iff in Hex.
      * intros d' Hd'. rewrite <- app_assoc in Hall. cbn [app] in Hall.
        destruct Hd' as [<-|Hd']; [|now apply Hall].
        rewrite setting_exists_app. apply orb_true_iff. right.
        unfold setting_exists. cbn [existsb]. now rewrite String.eqb_refl.
Qed.

Lemma create_settings_present (defaults : list Setting.t) :
  forall table,
    (forall d, In d defaults -> setting_exists (Setting.id d) table = true) ->
    create_settings defaults table = Ok table.
Proof.
  induction defaults as [|d defaults IH]; intros table H; [reflexivity|].
  cbn [create_settings]. unfold create_setting.
  rewrite (H d (or_introl eq_refl)). cbn [try_except exn_eqb bind].
  apply IH. intros d' Hd'. apply H. now right.
Qed.

Lemma setting_defaults_ids (generate_password : string -> string) :
  map Setting.id (setting_defaults generate_password) =
  [ "host"; "port"; "pi_wattage"; "username"; "password"; "profile_image";
    "always_authenticate"; "language"; "title"; "exclude_ids"; "power_price";
    "water_price"; "meross_cloud_username"; "meross_cloud_password";
    "wind_speed_indicator"; "temperature_indicator"; "distance_indicator";
    "water_volume_indicator"; "show_min_max_gauge"; "hide_environment_dashboard";
    "all_gauges_on_single_page"; "graph_smooth_value" ]%string.
Proof. reflexivity. Qed.

Lemma setting_defaults_unique (generate_password : string -> string) :
  NoDup (map Setting.id (setting_defaults generate_password)).
Proof.
  rewrite setting_defaults_ids.
  repeat (constructor;
          [intros H; cbn [In] in H;
           repeat (destruct H as [H|H]; [discriminate H|]); exact H|]).
  constructor.
Qed.

Lemma NoDup_map_eq {A B : Type} (f : A -> B) (l : list A) (x y : A) :
  NoDup (map f l) -> In x l -> In y l -> f x = f y -> x = y.
Proof.
  induction l as [|a l IH]; simpl; intros Hnd Hx Hy Heq; [contradiction|].
  inversion Hnd as [|b l' Hnot Hnd']; subst.
  destruct Hx as [<-|Hx], Hy as [<-|Hy]; trivial.
  - destruct Hnot. rewrite Heq. now apply in_map.
  - destruct Hnot. rewrite <- Heq. now apply in_map.
  - now apply IH.
Qed.

Lemma setting_value_Some (id : string) (table : list Setting.t) (v : string) :
  setting_value id table = Some v ->
  exists s, In s table /\ Setting.id s = id /\ Setting.value s = v.
Proof.
  unfold setting_value.
  destruct (find (fun s => String.eqb (Setting.id s) id) table) as [s|] eqn:E;
    [|discriminate].
  intros [= <-]. apply find_some in E. destruct E as [Hin Hid].
  apply String.eqb_eq in Hid. now exists s.
Qed.

(** X13. [create_defaults] never raises and never touches a stored
    setting: it returns the table followed by some of the defaults, each
    under a key the table did not have, so every key that had a value keeps
    that value. *)
Theorem create_defaults_keeps_existing (generate_password : string -> string)
    (table : list Setting.t) :
  exists added,
    create_defaults generate_password table = Ok (table ++ added) /\
    (forall s, In s added ->
       In s (setting_defaults generate_password) /\
       setting_exists (Setting.id s) table = false) /\
    (forall id v, setting_value id table = Some v ->
       setting_value id (table ++ added) = Some v).
Proof.
  destruct (create_settings_spec (setting_defaults generate_password) table)
    as (added & Hc & Hadd & _).
  exists added. split; [exact Hc|]. split; [exact Hadd|].
  intros id v Hv. now rewrite setting_value_app, Hv.
Qed.

Lemma create_defaults_keeps_existing_witness :
  exists table',
    create_defaults (fun _ => "hash"%string) settings0 = Ok table' /\
    setting_value "port" table' = Some "8443"%string /\
    List.length table' = 22%nat.
Proof.
  destruct (create_defaults_keeps_existing (fun _ => "hash"%string) settings0)
    as (added & Hc & _ & Hkeep).
  exists (settings0 ++ added). split; [exact Hc|]. split.
  - apply Hkeep. reflexivity.
  - assert (Hq : create_defaults (fun _ => "hash"%string) settings0
                 = Ok (settings0 ++ added)) by exact Hc.
    vm_compute in Hq. injection Hq as Hq. rewrite <- Hq. reflexivity.
Defined.

(** X14. After [create_defaults] every default key has a value, and a key
    that had none before has its default value; on an empty table the
    result is the list of defaults. *)
Theorem create_defaults_complete (generate_password : string -> string)
    (table table' : list Setting.t) :
  create_defaults generate_password table = Ok table' ->
  (forall d, In d (setting_defaults generate_password) ->
     setting_exists (Setting.id d) table' = true /\
     (setting_exists (Setting.id d) table = false ->
      setting_value (Setting.id d) table' = Some (Setting.value d))) /\
  (table = [] -> table' = setting_defaults generate_password).
Proof.
  intros Hc.
  destruct (create_settings_spec (setting_defaults generate_password) table)
    as (added & Hc' & Hadd & Hall).
  unfold create_defaults in Hc. rewrite Hc' in Hc. injection Hc as <-.
  split.
  - intros d Hd. split; [now apply Hall|]. intros Hnew.
    rewrite setting_value_app.
    rewrite (proj2 (setting_value_None _ _) Hnew).
    destruct (setting_value (Setting.id d) added) as [v|] eqn:E.
    + apply setting_value_Some in E. destruct E as (s & Hs & Hid & <-).
      destruct (Hadd s Hs) as [Hin _].
      now rewrite (NoDup_map_eq Setting.id _ s d
                     (setting_defaults_unique generate_password) Hin Hd Hid).
    + apply setting_value_None in E.
      specialize (Hall d Hd). rewrite setting_exists_app, Hnew, E in Hall.
      discriminate Hall.
  - intros ->. cbn [app] in Hc'. unfold create_defaults in Hc'.
    assert (Hq : create_settings (setting_defaults generate_password) []
                 = Ok (setting_defaults generate_password)) by reflexivity.
    rewrite Hq in Hc'. now injection Hc' as <-.
Qed.

Lemma create_defaults_complete_witness :
  exists table',
    create_defaults (fun _ => "hash"%string) settings0 = Ok table' /\
    setting_value "title" table' = Some "TerrariumPI"%string /\
    setting_value "password" table' = Some "hash"%string /\
    setting_exists "graph_smooth_value" table' = true.
Proof.
  destruct (create_defaults (fun _ => "hash"%string) settings0)
    as [table'|e] eqn:E; [|vm_compute in E; discriminate E].
  exists table'. split; [reflexivity|].
  destruct (create_defaults_complete (fun _ => "hash"%string) settings0 table' E)
    as [Hall _].
  split; [|split].
  - apply (Hall (Setting.mk "title" "TerrariumPI")); [|reflexivity].
    cbn [setting_defaults In]. tauto.
  - apply (Hall (Setting.mk "password" "hash")); [|reflexivity].
    cbn [setting_defaults In]. tauto.
  - apply (Hall (Setting.mk "graph_smooth_value" "0")).
    cbn [setting_defaults In]. tauto.
Defined.

(** X15. [create_defaults] is idempotent: run on its own result it returns
    that result, whatever passwords the second run generates. *)
Theorem create_defaults_idempotent
    (generate_password generate_password' : string -> string)
    (table table' : list Setting.t) :
  create_defaults generate_password table = Ok table' ->
  create_defaults generate_password' table' = Ok table'.
Proof.
  intros Hc.
  destruct (create_settings_spec (setting_defaults generate_password) table)
    as (added & Hc' & _ & Hall).
  unfold create_defaults in Hc. rewrite Hc' in Hc. injection Hc as <-.
  apply create_settings_present. intros d Hd.
  assert (Hid : In (Setting.id d)
                  (map Setting.id (setting_defaults generate_password))).
  { rewrite setting_defaults_ids, <- (setting_defaults_ids generate_password').
    now apply in_map. }
  apply in_map_iff in Hid. destruct Hid as (d0 & Hid & Hd0).
  rewrite <- Hid. now apply Hall.
Qed.

Lemma create_defaults_idempotent_witness :
  exists table',
    create_defaults (fun _ => "hash"%string) settings0 = Ok table' /\
    create_defaults (fun _ => "another hash"%string) table' = Ok table'.
Proof.
  destruct (create_defaults (fun _ => "hash"%string) settings0)
    as [table'|e] eqn:E; [|vm_compute in E; discriminate E].
  exists table'. split; [reflexivity|].
  exact (create_defaults_idempotent _ _ settings0 table' E).
Defined.

(** * Further properties of Enclosure *)

Lemma lower_extensions (ext : list ascii) :
  In ext Enclosure.extensions -> lower ext = ext.
Proof.
  unfold Enclosure.extensions. cbn [In].
  intros [<-|[<-|[<-|[<-|[]]]]]; reflexivity.
Qed.

(** A path that ends with the text of the id and a supported suffix is
    matched by the pattern. *)
Lemma regex_search_supported (id p extension : list ascii) :
  supported extension ->
  Enclosure.regex_search id (p ++ id ++ extension) = true.
Proof.
  unfold supported. intros H. apply in_map_iff in H.
  destruct H as (ext & Hext & Hin).
  unfold Enclosure.regex_search. apply existsb_exists.
  exists ext. split; [exact Hin|]. cbn beta zeta. apply orb_true_iff. left.
  rewrite !lower_app, <- Hext, (lower_extensions ext Hin).
  change (lower (chars ".")) with (chars ".").
  apply endswith_app.
Qed.

Lemma regex_search_supported_in (id p q extension : list ascii) :
  supported extension ->
  Enclosure.regex_search id (p ++ q ++ id ++ extension) = true.
Proof.
  intros H. rewrite app_assoc. now apply regex_search_supported.
Qed.

(** X16. Once the hook has gone through for an image whose suffix is
    [.jpg], [.jpeg], [.gif] or [.png] in any case of letters, the stored
    path matches the pattern: every later insert or update hook returns the
    enclosure and the files as they are, without a rename, whatever the
    rename would do. *)
Theorem enclosure_hook_stable (filesystem : Type)
    (rename rename' : list ascii -> list ascii -> filesystem -> result filesystem)
    (self self' : Enclosure.t) (fs fs' fs2 : filesystem) :
  supported (PurePosixPath.suffix (PurePosixPath.parse (chars (Enclosure.image self)))) ->
  Enclosure.before_insert filesystem rename self fs = Ok (self', fs') ->
  Enclosure.before_update filesystem rename' self' fs2 = Ok (self', fs2) /\
  Enclosure.before_insert filesystem rename' self' fs2 = Ok (self', fs2).
Proof.
  intros Hsup H.
  assert (Hm : Enclosure.regex_search (UUID.str (Enclosure.id self'))
                 (chars (Enclosure.image self')) = true).
  { unfold Enclosure.before_insert, Enclosure.__rename_image in H.
    destruct (Enclosure.regex_search (UUID.str (Enclosure.id self))
                (chars (Enclosure.image self))) eqn:E.
    - injection H as <- _. exact E.
    - apply bind_Ok in H. destruct H as (fs1 & _ & [= <- _]).
      cbn [Enclosure.id Enclosure.image Enclosure.with_image]. unfold chars at 1.
      rewrite list_ascii_of_string_of_list_ascii.
      exact (regex_search_supported_in _ _ (chars "/") _ Hsup). }
  unfold Enclosure.before_update, Enclosure.before_insert, Enclosure.__rename_image.
  rewrite Hm. split; reflexivity.
Qed.

Lemma enclosure_hook_stable_witness :
  exists self' fs',
    Enclosure.before_insert files rename_file enclosure0 ["media/gecko.JPG"%string]
    = Ok (self', fs') /\
    Enclosure.before_update files rename_file self' [] = Ok (self', []).
Proof.
  destruct (Enclosure.before_insert files rename_file enclosure0
              ["media/gecko.JPG"%string]) as [[self' fs']|e] eqn:E;
    [|vm_compute in E; discriminate E].
  exists self', fs'. split; [reflexivity|].
  apply (enclosure_hook_stable files rename_file rename_file enclosure0 self'
           ["media/gecko.JPG"%string] fs' [] ); [|exact E].
  unfold supported. vm_compute. tauto.
Defined.

Lemma endswith_nil (x : list ascii) : x <> [] -> endswith x [] = false.
Proof.
  unfold endswith. intros Hx.
  destruct (rev x) as [|c l] eqn:E; [|reflexivity].
  apply (f_equal (@rev ascii)) in E. rewrite rev_involutive in E.
  now destruct Hx.
Qed.

(** X17. An enclosure without an image is not skipped by the hook: the
    empty path is the current directory, so the hook asks for the rename of
    [.] to [./<id>] and stores [./<id>] as the image when the rename
    returns; when the rename raises, so does the insert or update. *)
Theorem enclosure_hook_without_image (filesystem : Type)
    (rename : list ascii -> list ascii -> filesystem -> result filesystem)
    (self : Enclosure.t) (fs : filesystem) :
  Enclosure.image self = ""%string ->
  let image_name := chars "./" ++ UUID.str (Enclosure.id self) in
  Enclosure.before_insert filesystem rename self fs =
  (fs' <- rename (chars ".") image_name fs ;;
   Ok (Enclosure.with_image self (string_of_list_ascii image_name), fs')) /\
  (forall e, rename (chars ".") image_name fs = Raise e ->
     Enclosure.before_insert filesystem rename self fs = Raise e /\
     Enclosure.before_update filesystem rename self fs = Raise e).
Proof.
  intros Himg image_name.
  assert (Hm : Enclosure.regex_search (UUID.str (Enclosure.id self)) [] = false).
  { unfold Enclosure.regex_search, Enclosure.extensions. cbn [existsb lower map].
    rewrite !endswith_nil; trivial;
      try (intros H; apply (f_equal (@List.length ascii)) in H;
           rewrite ?length_app, ?length_map, ?length_app in H; simpl in H; lia). }
  assert (Hb : Enclosure.before_insert filesystem rename self fs =
               (fs' <- rename (chars ".") image_name fs ;;
                Ok (Enclosure.with_image self (string_of_list_ascii image_name), fs'))).
  { unfold Enclosure.before_insert, Enclosure.__rename_image.
    rewrite Himg. change (chars "") with (@nil ascii). rewrite Hm.
    unfold image_name. rewrite app_nil_r. reflexivity. }
  split; [exact Hb|]. intros e He.
  unfold Enclosure.before_update. fold (Enclosure.before_insert filesystem rename self fs).
  rewrite Hb, He. split; reflexivity.
Qed.

Lemma enclosure_hook_without_image_witness :
  Enclosure.before_insert files rename_file enclosure2 ["media/gecko.JPG"%string]
  = Raise OSError /\
  Enclosure.before_insert files rename_file enclosure2 ["."%string]
  = Ok (Enclosure.with_image enclosure2 "./12345678-1234-5678-1234-567812345678",
        ["./12345678-1234-5678-1234-567812345678"%string]).
Proof.
  destruct (enclosure_hook_without_image files rename_file enclosure2
              ["media/gecko.JPG"%string] eq_refl) as [_ Hraise].
  destruct (enclosure_hook_without_image files rename_file enclosure2
              ["."%string] eq_refl) as [Hrun _].
  split.
  - apply (Hraise OSError). vm_compute. reflexivity.
  - rewrite Hrun. vm_compute. reflexivity.
Defined.

(** * Further properties of the current value *)

(** X19. A relay all of whose rows are more than 3900 seconds old reports
    no consumption: its current wattage and its current flow are zero and
    it is off, whatever its last reading and its configured wattage and
    flow. A row exactly 3900 seconds old still counts as current. *)
Theorem relay_stale_reports_nothing (self : Relay.t) (now : datetime) :
  (forall r, In r (Relay.history self) ->
     timedelta 3900 < now - RelayHistory.timestamp r) ->
  Relay.current_wattage self now = Q2Qc 0 /\
  Relay.current_flow self now = Q2Qc 0 /\
  Relay.is_off self now = true.
Proof.
  intros Hold.
  assert (Hv : Relay.value self now = None).
  { unfold Relay.value.
    replace (latest_since RelayHistory.timestamp
               (now - timedelta Relay.__MAX_VALUE_AGE) (Relay.history self))
      with (@None RelayHistory.t); trivial.
    symmetry. apply latest_since_None. intros x Hx. specialize (Hold x Hx).
    change (timedelta Relay.__MAX_VALUE_AGE) with (timedelta 3900). lia. }
  unfold Relay.current_wattage, Relay.current_flow, Relay.is_off, Relay.is_on.
  rewrite Hv. auto.
Qed.

Lemma relay_stale_reports_nothing_witness :
  Relay.current_wattage relay1 (t0 + timedelta 3900) = fl 60 /\
  Relay.current_wattage relay1 (t0 + timedelta 3900 + 1) = Q2Qc 0.
Proof.
  split.
  - apply Qc_is_canon. vm_compute. reflexivity.
  - apply (relay_stale_reports_nothing relay1 (t0 + timedelta 3900 + 1)).
    intros r [<-|[]]. cbn [RelayHistory.timestamp]. unfold t0, timedelta. lia.
Defined.

Lemma latest_since_permutation {row : Type} (timestamp : row -> datetime)
    (limit : datetime) (h h' : list row) :
  Permutation h h' ->
  unique_timestamps timestamp h ->
  latest_since timestamp limit h' = latest_since timestamp limit h.
Proof.
  intros Hp Hu.
  assert (Hu' : unique_timestamps timestamp h').
  { unfold unique_timestamps in *.
    apply (Permutation_NoDup (l := map timestamp h)); trivial.
    now apply Permutation_map. }
  destruct (latest_since timestamp limit h) as [r|] eqn:E.
  - apply latest_since_Some in E. destruct E as (Hin & Hl & Hmax).
    destruct (latest_since timestamp limit h') as [r'|] eqn:E'.
    + apply latest_since_Some in E'. destruct E' as (Hin' & Hl' & Hmax').
      f_equal. apply (unique_timestamps_eq _ timestamp h'); trivial.
      * now apply (Permutation_in _ Hp).
      * assert (timestamp r' <= timestamp r).
        { apply Hmax; trivial. apply (Permutation_in _ (Permutation_sym Hp) Hin'). }
        assert (timestamp r <= timestamp r').
        { apply Hmax'; trivial. now apply (Permutation_in _ Hp). }
        lia.
    + exfalso.
      assert (timestamp r < limit); [|lia].
      apply (proj1 (latest_since_None _ timestamp limit h') E').
      now apply (Permutation_in _ Hp).
  - apply latest_since_None. intros x Hx.
    apply (proj1 (latest_since_None _ timestamp limit h) E).
    apply (Permutation_in _ (Permutation_sym Hp) Hx).
Qed.

(** X20. Under the primary key the current value does not depend on the
    order in which the rows of the history are stored: two entities whose
    histories hold the same rows have the same current value at every
    instant. *)
Theorem current_value_order_independent (now : datetime) :
  (forall s s' : Sensor.t,
      Permutation (Sensor.history s) (Sensor.history s') ->
      unique_timestamps SensorHistory.timestamp (Sensor.history s) ->
      Sensor.value s' now = Sensor.value s now) /\
  (forall s s' : Relay.t,
      Permutation (Relay.history s) (Relay.history s') ->
      unique_timestamps RelayHistory.timestamp (Relay.history s) ->
      Relay.value s' now = Relay.value s now) /\
  (forall s s' : Button.t,
      Permutation (Button.history s) (Button.history s') ->
      unique_timestamps ButtonHistory.timestamp (Button.history s) ->
      Button.value s' now = Button.value s now).
Proof.
  split; [|split]; intros s s' Hp Hu.
  - unfold Sensor.value. now rewrite (latest_since_permutation _ _ _ _ Hp Hu).
  - unfold Relay.value. now rewrite (latest_since_permutation _ _ _ _ Hp Hu).
  - unfold Button.value. now rewrite (latest_since_permutation _ _ _ _ Hp Hu).
Qed.

Lemma current_value_order_independent_witness :
  Sensor.value (Sensor.with_history sensor0 (rev (Sensor.history sensor2)))
    (t0 + timedelta 130)
  = Sensor.value sensor2 (t0 + timedelta 130).
Proof.
  destruct (current_value_order_independent (t0 + timedelta 130)) as (HS & _).
  apply HS.
  - cbn [Sensor.history Sensor.with_history]. apply Permutation_rev.
  - unfold unique_timestamps.
    cbn [sensor2 Sensor.history Sensor.with_history map SensorHistory.timestamp].
    constructor.
    + intros [H|[]]. unfold t0, timedelta in H. lia.
    + constructor; [intros []|constructor].
Defined.

Lemma Relay_value_after_row (self : Relay.t) (row : RelayHistory.t)
    (now' : datetime) :
  (forall x, In x (Relay.history self) ->
     RelayHistory.timestamp x < RelayHistory.timestamp row) ->
  RelayHistory.timestamp row + timedelta 3900 < now' ->
  Relay.value (Relay.with_history self (Relay.history self ++ [row])) now' = None.
Proof.
  intros Hearlier Hout. unfold Relay.value. cbn [Relay.history Relay.with_history].
  replace (latest_since RelayHistory.timestamp
             (now' - timedelta Relay.__MAX_VALUE_AGE) _)
    with (@None RelayHistory.t); trivial.
  symmetry. apply latest_since_None. intros x Hx.
  change (timedelta Relay.__MAX_VALUE_AGE) with (timedelta 3900).
  apply in_app_iff in Hx. destruct Hx as [Hx|[<-|[]]]; [|lia].
  specialize (Hearlier x Hx). lia.
Qed.

Lemma Button_value_after_row (self : Button.t) (row : ButtonHistory.t)
    (now' : datetime) :
  (forall x, In x (Button.history self) ->
     ButtonHistory.timestamp x < ButtonHistory.timestamp row) ->
  ButtonHistory.timestamp row + timedelta 3900 < now' ->
  Button.value (Button.with_history self (Button.history self ++ [row])) now' = None.
Proof.
  intros Hearlier Hout. unfold Button.value. cbn [Button.history Button.with_history].
  replace (latest_since ButtonHistory.timestamp
             (now' - timedelta Button.__MAX_VALUE_AGE) _)
    with (@None ButtonHistory.t); trivial.
  symmetry. apply latest_since_None. intros x Hx.
  change (timedelta Button.__MAX_VALUE_AGE) with (timedelta 3900).
  apply in_app_iff in Hx. destruct Hx as [Hx|[<-|[]]]; [|lia].
  specialize (Hearlier x Hx). lia.
Qed.

(** X21. An unchanged value is written again once the last row has left
    the window: after a call of [Relay.update] or [Button.update] that
    wrote a row, on a history with no row later than the clock, a later
    call with the same value and no force writes a row exactly when it
    comes more than 3900 seconds after the first, and is a no-op before. *)
Theorem unchanged_value_rewritten_after_expiry (now now' : datetime) (v : float)
    (force : bool) :
  now <= now' ->
  (forall (self self' : Relay.t) (row : RelayHistory.t),
      in_the_past RelayHistory.timestamp now (Relay.history self) ->
      Relay.update self now (Some v) force = Ok (Some row, self') ->
      (now' <= now + timedelta 3900 ->
       Relay.update self' now' (Some v) false = Ok (None, self')) /\
      (now + timedelta 3900 < now' ->
       exists row' self'',
         Relay.update self' now' (Some v) false = Ok (Some row', self'') /\
         Relay.history self'' = Relay.history self ++ [row; row'])) /\
  (forall (self self' : Button.t) (row : ButtonHistory.t),
      in_the_past ButtonHistory.timestamp now (Button.history self) ->
      Button.update self now (Some v) force = Ok (Some row, self') ->
      (now' <= now + timedelta 3900 ->
       Button.update self' now' (Some v) false = Ok (None, self')) /\
      (now + timedelta 3900 < now' ->
       exists row' self'',
         Button.update self' now' (Some v) false = Ok (Some row', self'') /\
         Button.history self'' = Button.history self ++ [row; row'])).
Proof.
  intros Hle. split.
  - intros self self' row Hpast Hu. apply Relay_update_cases in Hu.
    destruct Hu as [([=] & _)|(row' & [= <-] & Hrow & -> & Hpk & _)].
    pose proof (not_later_pk_free _ _ _ Hpast Hpk) as Hearlier.
    assert (Ht : RelayHistory.timestamp row = now) by (now rewrite Hrow).
    assert (Hval : RelayHistory.value row = v) by (now rewrite Hrow).
    rewrite <- Ht in Hearlier. split.
    + intros Hin. apply Relay_update_unchanged. rewrite <- Hval.
      apply Relay_value_newest; trivial. lia.
    + intros Hout. eexists. eexists. split.
      * apply (Relay_update_insert _ now' v false).
        -- right. rewrite Relay_value_after_row; [discriminate | trivial | lia].
        -- apply earlier_pk_free. cbn [Relay.history Relay.with_history].
           intros x Hx. apply in_app_iff in Hx. destruct Hx as [Hx|[<-|[]]].
           ++ specialize (Hearlier x Hx). unfold timedelta in *. lia.
           ++ unfold timedelta in *. lia.
      * cbn [Relay.history Relay.with_history]. rewrite <- app_assoc. reflexivity.
  - intros self self' row Hpast Hu. apply Button_update_cases in Hu.
    destruct Hu as [([=] & _)|(row' & [= <-] & Hrow & -> & Hpk & _)].
    pose proof (not_later_pk_free _ _ _ Hpast Hpk) as Hearlier.
    assert (Ht : ButtonHistory.timestamp row = now) by (now rewrite Hrow).
    assert (Hval : ButtonHistory.value row = v) by (now rewrite Hrow).
    rewrite <- Ht in Hearlier. split.
    + intros Hin. apply Button_update_unchanged. rewrite <- Hval.
      apply Button_value_newest; trivial. lia.
    + intros Hout. eexists. eexists. split.
      * apply (Button_update_insert _ now' v false).
        -- right. rewrite Button_value_after_row; [discriminate | trivial | lia].
        -- apply earlier_pk_free. cbn [Button.history Button.with_history].
           intros x Hx. apply in_app_iff in Hx. destruct Hx as [Hx|[<-|[]]].
           ++ specialize (Hearlier x Hx). unfold timedelta in *. lia.
           ++ unfold timedelta in *. lia.
      * cbn [Button.history Button.with_history]. rewrite <- app_assoc. reflexivity.
Qed.

Lemma unchanged_value_rewritten_after_expiry_witness :
  exists row self',
    Relay.update relay0 t0 (Some (fl 100)) false = Ok (Some row, self') /\
    Relay.update self' (t0 + timedelta 3900) (Some (fl 100)) false = Ok (None, self') /\
    exists row' self'',
      Relay.update self' (t0 + timedelta 3900 + 1) (Some (fl 100)) false
      = Ok (Some row', self'') /\
      Relay.history self'' = [row; row'].
Proof.
  assert (Hu : exists row self',
             Relay.update relay0 t0 (Some (fl 100)) false = Ok (Some row, self')).
  { eexists. eexists.
    apply (Relay_update_insert relay0 t0 (fl 100) false); [right|reflexivity].
    intros H. vm_compute in H. discriminate H. }
  destruct Hu as (row & self' & Hu). exists row, self'. split; [exact Hu|].
  assert (Hpast : in_the_past RelayHistory.timestamp t0 (Relay.history relay0))
    by (intros x []).
  split.
  - destruct (unchanged_value_rewritten_after_expiry t0 (t0 + timedelta 3900)
                (fl 100) false) as [HR _]; [unfold timedelta; lia|].
    destruct (HR relay0 self' row Hpast Hu) as [Hnoop _]. apply Hnoop. lia.
  - destruct (unchanged_value_rewritten_after_expiry t0 (t0 + timedelta 3900 + 1)
                (fl 100) false) as [HR _]; [unfold timedelta; lia|].
    destruct (HR relay0 self' row Hpast Hu) as [_ Hwrite]. apply Hwrite. lia.
Defined.
